(** * ftl: maybe, the unordered_map functor instance and the sum type

    A shallow embedding of
    - [src/maybe.h]: the class template [ftl::maybe<A>] and its operators;
    - [include/ftl/unordered_map.h]: [functor<std::unordered_map>::map];
    - [ftl::sum_type] as exercised by [tests/sum_type_tests.cpp].

    Objects live in a store indexed by addresses, so that [this == &m] and
    the mutation of a moved-from source can be expressed as the code does. *)

From Stdlib Require Import Ascii.
From stdpp Require Import gmap strings list fin_maps.

(** ** ftl::maybe *)
Module Maybe.

(** Exceptions that leave a member function of [maybe]. *)
Inductive exn :=
| logic_error (what : string)   (* thrown by operator* and operator-> *)
| value_type_exn.               (* thrown by a constructor of value_type *)

(** What [maybe<A>] consumes from its [value_type]. *)
Class ValueType (A : Type) := {
  (* value_type(const value_type&); [None] when the constructor throws *)
  copy_construct : A → option A;
  (* value_type(value_type&&): the new object ([None] when the constructor
     throws), and the state the moved-from argument is left in *)
  move_construct : A → option A * A;
  (* operator== on value_type *)
  value_eq : A → A → bool;
}.

(** The anonymous union [{ char dummy[sizeof(value_type)]; value_type val; }]:
    raw bytes, or a constructed [value_type]. *)
Inductive storage (A : Type) :=
| dummy
| constructed (a : A).
Arguments dummy {A}.
Arguments constructed {A} a.

Record maybe (A : Type) := Maybe { val : storage A; isValid : bool }.
Arguments Maybe {A} val isValid.
Arguments val {A} m.
Arguments isValid {A} m.

Abbreviation addr := nat (only parsing).

(** A reference to the [val] member of the object at an address, as returned
    by operator* (operator-> returns the pointer to the same member). *)
Inductive lvalue := val_of (p : addr).

Section maybe.
Context {A : Type} `{ValueType A}.

(** How a call ends: it returns, an exception leaves it, its behaviour is
    undefined, or std::terminate is called because an exception met a
    noexcept boundary. *)
Inductive outcome (R : Type) :=
| Returns (r : R) (h : gmap addr (maybe A))
| Throws (e : exn) (h : gmap addr (maybe A))
| Undefined
| Terminates.
Arguments Returns {R} r h.
Arguments Throws {R} e h.
Arguments Undefined {R}.
Arguments Terminates {R}.

Definition cmd (R : Type) : Type := gmap addr (maybe A) → outcome R.

Definition ret {R} (r : R) : cmd R := λ h, Returns r h.

Definition bind {R Q} (c : cmd R) (k : R → cmd Q) : cmd Q :=
  λ h, match c h with
       | Returns r h' => k r h'
       | Throws e h' => Throws e h'
       | Undefined => Undefined
       | Terminates => Terminates
       end.

Definition throw {R} (e : exn) : cmd R := λ h, Throws e h.

Notation "x <- c1 ;; c2" := (bind c1 (λ x, c2))
  (at level 100, c1 at next level, right associativity).
Notation "c1 ;;; c2" := (bind c1 (λ _, c2))
  (at level 100, right associativity).

(** Member access on the object at [p]. *)
Definition get_isValid (p : addr) : cmd bool :=
  λ h, match h !! p with
       | Some o => Returns (isValid o) h
       | None => Undefined
       end.

Definition set_isValid (p : addr) (b : bool) : cmd unit :=
  λ h, match h !! p with
       | Some o => Returns tt (<[p := Maybe (val o) b]> h)
       | None => Undefined
       end.

(** Reading [val]: only a constructed object may be read. *)
Definition read_val (p : addr) : cmd A :=
  λ h, match h !! p with
       | Some (Maybe (constructed a) _) => Returns a h
       | _ => Undefined
       end.

(** Writing the state an operation leaves in [val]. *)
Definition write_val (p : addr) (s : storage A) : cmd unit :=
  λ h, match h !! p with
       | Some o => Returns tt (<[p := Maybe s (isValid o)]> h)
       | None => Undefined
       end.

(** [val.~value_type()] *)
Definition destroy_val (p : addr) : cmd unit :=
  _ <- read_val p;; write_val p dummy.

(** [new (&val) value_type(src.val)] *)
Definition placement_copy (p src : addr) : cmd unit :=
  a <- read_val src;;
  match copy_construct a with
  | Some b => write_val p (constructed b)
  | None => throw value_type_exn
  end.

(** [new (&val) value_type(std::move(src.val))] *)
Definition placement_move (p src : addr) : cmd unit :=
  a <- read_val src;;
  let '(r, a') := move_construct a in
  write_val src (constructed a');;;
  match r with
  | Some b => write_val p (constructed b)
  | None => throw value_type_exn
  end.

(** A constructor runs on fresh storage at [this]; when it throws the
    object never comes to life and its destructor is not run. *)
Definition constructor (this : addr) (init : maybe A) (body : cmd unit)
  : cmd unit :=
  λ h, match h !! this with
       | Some _ => Undefined
       | None =>
           match body (<[this := init]> h) with
           | Throws e h' => Throws e (delete this h')
           | o => o
           end
       end.

(** [constexpr maybe() noexcept {}] *)
Definition maybe_default (this : addr) : cmd unit :=
  constructor this (Maybe dummy false) (ret tt).

(** [maybe(const maybe& m)] *)
Definition maybe_copy (this m : addr) : cmd unit :=
  v <- get_isValid m;;
  constructor this (Maybe dummy v)
    (v' <- get_isValid this;;
     if v' : bool then placement_copy this m else ret tt).

(** [maybe(maybe&& m)] *)
Definition maybe_move (this m : addr) : cmd unit :=
  v <- get_isValid m;;
  constructor this (Maybe dummy v)
    (v' <- get_isValid this;;
     if v' : bool then
       placement_move this m;;;
       set_isValid m false
     else ret tt).

(** [explicit constexpr maybe(const value_type& v)] *)
Definition maybe_value (this : addr) (v : A) : cmd unit :=
  match copy_construct v with
  | Some b => constructor this (Maybe (constructed b) true) (ret tt)
  | None => throw value_type_exn
  end.

(** [~maybe()] *)
Definition destructor (this : addr) : cmd unit :=
  v <- get_isValid this;;
  (if v : bool then destroy_val this;;; set_isValid this false
   else ret tt);;;
  λ h, Returns tt (delete this h).

(** [constexpr bool isNothing() noexcept] *)
Definition isNothing (this : addr) : cmd bool :=
  v <- get_isValid this;; ret (negb v).

(** [constexpr bool isValue() noexcept] *)
Definition isValue (this : addr) : cmd bool := get_isValid this.

(** [const maybe& operator= (const maybe& m)].  The self-assignment branch
    is a [return;] without operand: no reference is produced there. *)
Definition operator_assign (this m : addr) : cmd (option addr) :=
  if decide (this = m) then ret None
  else
    v <- get_isValid this;;
    (if v : bool then destroy_val this else ret tt);;;
    mv <- get_isValid m;;
    set_isValid this mv;;;
    v' <- get_isValid this;;
    (if v' : bool then placement_copy this m else ret tt);;;
    ret (Some this).

(** [const maybe& operator= (maybe&& m)] *)
Definition operator_assign_move (this m : addr) : cmd (option addr) :=
  if decide (this = m) then ret None
  else
    v <- get_isValid this;;
    (if v : bool then destroy_val this else ret tt);;;
    mv <- get_isValid m;;
    set_isValid this mv;;;
    v' <- get_isValid this;;
    (if v' : bool then
       placement_move this m;;;
       set_isValid m false
     else ret tt);;;
    ret (Some this).

(** [constexpr operator bool() noexcept] *)
Definition operator_bool (this : addr) : cmd bool := isValue this.

(** [value_type& operator* ()] and its const overload *)
Definition operator_star (this : addr) : cmd lvalue :=
  v <- get_isValid this;;
  if negb v then
    throw (logic_error "Attempting to read the value of Nothing.")
  else ret (val_of this).

(** [value_type* operator-> ()] and its const overload *)
Definition operator_arrow (this : addr) : cmd lvalue :=
  v <- get_isValid this;;
  if negb v then
    throw (logic_error "Attempting to read teh value of Nothing.")
  else ret (val_of this).

(** Reading through a reference obtained from operator*. *)
Definition read (r : lvalue) : cmd A :=
  match r with val_of p => read_val p end.

(** The built-in [&&] on two contextually converted operands. *)
Definition and_also (c1 c2 : cmd bool) : cmd bool :=
  b <- c1;; if b : bool then c2 else ret false.

Definition not_ (c : cmd bool) : cmd bool := b <- c;; ret (negb b).

(** [bool operator== (const maybe<A>& m1, const maybe<A>& m2)] *)
Definition operator_eq (m1 m2 : addr) : cmd bool :=
  c <- and_also (operator_bool m1) (operator_bool m2);;
  if c : bool then
    r1 <- operator_star m1;;
    r2 <- operator_star m2;;
    a <- read r1;;
    b <- read r2;;
    ret (value_eq a b)
  else
    c' <- and_also (not_ (operator_bool m1)) (not_ (operator_bool m2));;
    if c' : bool then ret true else ret false.

(** [bool operator!= (const maybe<A>& m1, const maybe<A>& m2)] *)
Definition operator_ne (m1 m2 : addr) : cmd bool :=
  not_ (operator_eq m1 m2).

(** The class invariant every member relies on: a set flag means a
    constructed [val]. *)
Definition valid_state (o : maybe A) : bool :=
  match o with
  | Maybe dummy true => false
  | _ => true
  end.

End maybe.

Arguments Returns {A R} r h.
Arguments Throws {A R} e h.
Arguments Undefined {A R}.
Arguments Terminates {A R}.

(** [int] as a value type: copying and moving never throw and leave the
    source as it was. *)
#[export] Instance int_ValueType : ValueType Z :=
  {| copy_construct := Some;
     move_construct := λ n, (Some n, n);
     value_eq := Z.eqb |}.

(** A value type whose copy constructor throws once its budget of copies
    is used up (think of a handle that can be duplicated a bounded number
    of times); moving never throws. *)
Record Scarce := { copies_left : nat }.

#[export] Instance Scarce_ValueType : ValueType Scarce :=
  {| copy_construct := λ x,
       match copies_left x with
       | O => None
       | S n => Some {| copies_left := n |}
       end;
     move_construct := λ x, (Some x, x);
     value_eq := λ x y, Nat.eqb (copies_left x) (copies_left y) |}.

(** *** Stores used in concrete runs *)

(** A store with an empty maybe<int> at 0 and one holding 5 at 1. *)
Definition int_store : gmap nat (maybe Z) :=
  {[0 := Maybe dummy false; 1 := Maybe (constructed 5%Z) true]}.

(** [Scarce x{1}; maybe<Scarce> src(x); maybe<Scarce> dst;] with [src] at
    address 1 and [dst] at address 0: the one copy [x] allows is spent on
    [src]. *)
Definition scarce_setup : cmd unit :=
  bind (maybe_value 1 {| copies_left := 1 |}) (λ _, maybe_default 0).

Definition scarce_store : gmap nat (maybe Scarce) :=
  {[0 := Maybe dummy false;
    1 := Maybe (constructed {| copies_left := 0 |}) true]}.

End Maybe.

(** ** functor<std::unordered_map<K,T,H,C,A>> *)
Module UnorderedMap.

Section functor.
Context {K : Type} `{Countable K}.

(** [rm.emplace(k, u)]: the element is inserted only when the container has
    no element with that key. *)
Definition emplace {V : Type} (k : K) (u : V) (rm : gmap K V) : gmap K V :=
  match rm !! k with
  | Some _ => rm
  | None => <[k := u]> rm
  end.

Context {T U : Type}.

(** [static unordered_map<U> map(F&& f, const unordered_map<T>& m)].
    [kvs] is the sequence of elements the range-for visits (the bucket order
    of [m], which the container leaves unspecified); the second component is
    [m] after the call. *)
Definition map_lvalue (f : T → U) (m : gmap K T) (kvs : list (K * T))
  : gmap K U * gmap K T :=
  (foldl (λ rm kv, emplace kv.1 (f kv.2) rm) ∅ kvs, m).

(** [static unordered_map<U> map(F&& f, unordered_map<T>&& m)], the overload
    for a result type other than [T]. *)
Definition map_rvalue (f : T → U) (kvs : list (K * T)) : gmap K U :=
  foldl (λ rm kv, emplace kv.1 (f kv.2) rm) ∅ kvs.

(** [static unordered_map<T> map(F&& f, unordered_map<T>&& m)], the overload
    for endofunctions: [m[kv.first] = f(std::move(kv.second))] writes the
    element the loop is visiting, through the live reference [kv]. *)
Definition map_rvalue_endo (f : T → T) (m : gmap K T) (kvs : list (K * T))
  : gmap K T :=
  foldl (λ m kv,
           match m !! kv.1 with
           | Some v => <[kv.1 := f v]> m
           | None => m
           end) m kvs.

End functor.

(** A map used in concrete runs. *)
Definition prices : gmap nat Z := {[1 := 10%Z; 2 := 20%Z]}.

End UnorderedMap.

(** ** ftl::sum_type

    [ftl/sum_type.h] is not among the sources; only its tests are.  The
    definitions of this module follow the specification, and the fixtures at
    its end follow [tests/sum_type_tests.cpp]. *)
Module SumType.

Section sum_type.
(** Alternatives are named by [ty]; [den T] is the type of the payload. *)
Context {ty : Type} `{EqDecision ty} (den : ty → Type).

(** Modelled from the spec: the alternative-index resolution of
    ftl/sum_type.h (missing), the position of a type in the declared list. *)
Fixpoint index_of (T : ty) (Ts : list ty) : option nat :=
  match Ts with
  | [] => None
  | T' :: Ts' => if decide (T = T') then Some 0 else S <$> index_of T Ts'
  end.

(** Modelled from the spec: the definition-time check of ftl/sum_type.h
    (missing) that rejects a list with duplicate alternatives. *)
Definition distinct_alternatives (Ts : list ty) : bool :=
  bool_decide (NoDup Ts).

(** Modelled from the spec: the instance of ftl/sum_type.h (missing), an
    integer tag and the storage holding one live alternative. *)
Record sum_type := SumType { tag : nat; storage : sigT den }.

(** Modelled from the spec: the invariant of the instance of ftl/sum_type.h
    (missing), the tag identifies the live alternative. *)
Definition well_tagged (Ts : list ty) (x : sum_type) : Prop :=
  Ts !! tag x = Some (projT1 (storage x)).

(** Modelled from the spec: tag-directed construction of ftl/sum_type.h
    (missing), [sum_type<Ts...>{type<T>, args...}]; [None] when [T] is not
    an alternative, which the compiler rejects. *)
Definition construct (Ts : list ty) (T : ty) (v : den T) : option sum_type :=
  i ← index_of T Ts; Some (SumType i (existT T v)).

(** Modelled from the spec: [is<T>()] of ftl/sum_type.h (missing). *)
Definition is_ (Ts : list ty) (T : ty) (x : sum_type) : bool :=
  bool_decide (index_of T Ts = Some (tag x)).

Section match_engine.
(** Callables return an [R] and may act on captured state [S]. *)
Context {R S : Type}.

(** Modelled from the spec: a callable handed to [match] of ftl/sum_type.h
    (missing): it takes one alternative, or [ftl::otherwise]. *)
Inductive handler :=
| on (T : ty) (f : den T → S → R * S)
| otherwise (f : S → R * S).

(** Modelled from the spec: the alternative a callable of [match] in
    ftl/sum_type.h (missing) is resolved to by its parameter type. *)
Definition handles (h : handler) : option ty :=
  match h with
  | on T _ => Some T
  | otherwise _ => None
  end.

(** Modelled from the spec: the callables of a [match] of ftl/sum_type.h
    (missing) that take alternative [T]. *)
Definition explicit_for (T : ty) (hs : list handler) : list handler :=
  filter (λ h, handles h = Some T) hs.

(** Modelled from the spec: the fallback callables of a [match] of
    ftl/sum_type.h (missing). *)
Definition fallbacks (hs : list handler) : list handler :=
  filter (λ h, handles h = None) hs.

(** Modelled from the spec: the static coverage check of [match] in
    ftl/sum_type.h (missing): every alternative has exactly one callable of
    its own, or none and the fallback; there is at most one fallback. *)
Definition covered (hs : list handler) (T : ty) : bool :=
  match length (explicit_for T hs) with
  | 0 => bool_decide (length (fallbacks hs) = 1)
  | 1 => true
  | _ => false
  end.

(** Modelled from the spec: the coverage check of [match] in ftl/sum_type.h
    (missing) over the whole list of alternatives. *)
Definition exhaustive (Ts : list ty) (hs : list handler) : bool :=
  forallb (covered hs) Ts && bool_decide (length (fallbacks hs) ≤ 1)%nat.

(** Modelled from the spec: the callable that [match] of ftl/sum_type.h
    (missing) resolves for an alternative. *)
Definition resolve (T : ty) (hs : list handler) : option handler :=
  match explicit_for T hs with
  | h :: _ => Some h
  | [] => head (fallbacks hs)
  end.

(** Modelled from the spec: the call [match] of ftl/sum_type.h (missing)
    makes to the resolved callable; reading the storage under a type that
    is not live is undefined ([None]). *)
Definition invoke (h : handler) (x : sigT den) (s : S) : option (R * S) :=
  match h with
  | on T f =>
      match decide (projT1 x = T) with
      | left e => Some (f (eq_rect (projT1 x) den (projT2 x) T e) s)
      | right _ => None
      end
  | otherwise f => Some (f s)
  end.

(** Modelled from the spec: [match(handlers...)] of ftl/sum_type.h
    (missing): dispatch on the runtime tag; [None] when the handler set is
    rejected statically. *)
Definition match_ (Ts : list ty) (hs : list handler) (x : sum_type) (s : S)
  : option (R * S) :=
  if exhaustive Ts hs then
    T ← Ts !! tag x;
    h ← resolve T hs;
    invoke h (storage x) s
  else None.

End match_engine.

End sum_type.

Arguments SumType {ty den} tag storage.
Arguments tag {ty den} s.
Arguments storage {ty den} s.
Arguments on {ty den R S} T f.
Arguments otherwise {ty den R S} f.

(** *** The types of tests/sum_type_tests.cpp *)
Inductive test_ty :=
| int_ | char_ | A_ | B_ | C_ | NonTrivial_ | Nothing_.

#[export] Instance test_ty_eq_dec : EqDecision test_ty.
Proof. solve_decision. Defined.

(** [struct A {}], [struct B {}], [struct C {}] and [struct Nothing {}] are
    empty; [NonTrivial] has the single member [int field]. *)
Definition test_den (T : test_ty) : Type :=
  match T with
  | int_ | NonTrivial_ => Z
  | char_ => ascii
  | A_ | B_ | C_ | Nothing_ => unit
  end.

(** [constexpr bool wasInt(int x) { return x == 5; }] *)
Definition wasInt (x : Z) : bool := Z.eqb x 5.

(** [constexpr bool wasNotChar(char) { return false; }] *)
Definition wasNotChar (c : ascii) : bool := false.

(** [constexpr bool wasNotNothing(Nothing) { return false; }] *)
Definition wasNotNothing (n : unit) : bool := false.

(** A callable without captured state. *)
Definition pure_handler {R : Type} (T : test_ty) (f : test_den T → R)
  : handler test_den (R := R) (S := unit) :=
  on T (λ v s, (f v, s)).

(** A callable that records its call in a log, for observing which
    callables a match runs. *)
Definition logged {R : Type} (name : string) (T : test_ty)
    (f : test_den T → R)
  : handler test_den (R := R) (S := list string) :=
  on T (λ v log, (f v, log ++ [name])).

Definition logged_otherwise {R : Type} (name : string) (r : R)
  : handler test_den (R := R) (S := list string) :=
  otherwise (λ log, (r, log ++ [name])).

Definition pure_otherwise {R : Type} (r : R)
  : handler test_den (R := R) (S := unit) :=
  otherwise (λ s, (r, s)).

(** *** The cases of tests/sum_type_tests.cpp *)

(** "Static assertions": the match expressions on [x] and [z]; the
    assertions on std::is_trivial and std::is_literal_type are judgements
    of the compiler on the type and have no run to embed. *)
Definition test_static_assertions : option bool :=
  x ← construct test_den [int_; char_] int_ 5%Z;
  z ← construct test_den [Nothing_; int_] int_ 5%Z;
  m1 ← match_ test_den [int_; char_]
          [pure_handler int_ wasInt; pure_handler char_ wasNotChar] x tt;
  m2 ← match_ test_den [Nothing_; int_]
          [pure_handler Nothing_ wasNotNothing; pure_handler int_ wasInt]
          z tt;
  Some (m1.1 && m2.1).

(** "is<T>" *)
Definition test_is : option bool :=
  x ← construct test_den [int_; char_] int_ 10%Z;
  y ← construct test_den [int_; char_] char_ "b"%char;
  Some (is_ test_den [int_; char_] int_ x
        && negb (is_ test_den [int_; char_] char_ x)
        && negb (is_ test_den [int_; char_] int_ y)
        && is_ test_den [int_; char_] char_ y).

(** "Match expressions (trivial types)" *)
Definition test_match_trivial : option bool :=
  let hs := [pure_handler A_ (λ _, 0%Z); pure_handler B_ (λ _, 1%Z);
             pure_handler C_ (λ _, 2%Z)] in
  x ← construct test_den [A_; B_; C_] A_ tt;
  y ← construct test_den [A_; B_; C_] B_ tt;
  z ← construct test_den [A_; B_; C_] C_ tt;
  s1 ← match_ test_den [A_; B_; C_] hs x tt;
  s2 ← match_ test_den [A_; B_; C_] hs y tt;
  s3 ← match_ test_den [A_; B_; C_] hs z tt;
  Some (Z.eqb s1.1 0 && Z.eqb s2.1 1 && Z.eqb s3.1 2).

(** "Match expressions (non-trivial types)" *)
Definition test_match_non_trivial : option bool :=
  let hs := [pure_handler A_ (λ _, 0%Z); pure_handler B_ (λ _, 1%Z);
             pure_handler NonTrivial_ (λ _, 2%Z)] in
  x ← construct test_den [NonTrivial_; A_; B_] NonTrivial_ 0%Z;
  y ← construct test_den [A_; NonTrivial_; B_] A_ tt;
  z ← construct test_den [A_; B_; NonTrivial_] B_ tt;
  s1 ← match_ test_den [NonTrivial_; A_; B_] hs x tt;
  s2 ← match_ test_den [A_; NonTrivial_; B_] hs y tt;
  s3 ← match_ test_den [A_; B_; NonTrivial_] hs z tt;
  Some (Z.eqb s1.1 2 && Z.eqb s2.1 0 && Z.eqb s3.1 1).

(** "Match with otherwise (trivial types)" *)
Definition test_match_otherwise : option bool :=
  let hs := [pure_handler A_ (λ _, 0%Z); pure_otherwise 1%Z] in
  x ← construct test_den [A_; B_; C_] A_ tt;
  y ← construct test_den [A_; B_; C_] B_ tt;
  z ← construct test_den [A_; B_; C_] C_ tt;
  s1 ← match_ test_den [A_; B_; C_] hs x tt;
  s2 ← match_ test_den [A_; B_; C_] hs y tt;
  s3 ← match_ test_den [A_; B_; C_] hs z tt;
  Some (Z.eqb s1.1 0 && Z.eqb s2.1 1 && Z.eqb s3.1 1).

(** *** Instances used in concrete runs *)

(** [sum_type<int,char>{type<int>, 5}] *)
Definition int_five : sum_type test_den := SumType 0 (existT int_ 5%Z).

(** [sum_type<A,B,C>{type<B>}] *)
Definition active_B : sum_type test_den := SumType 1 (existT B_ tt).

Definition h_int : handler test_den := logged "h_int" int_ wasInt.
Definition h_char : handler test_den := logged "h_char" char_ wasNotChar.
Definition handler_for_A : handler test_den :=
  logged "handler_for_A" A_ (λ _, 0%Z).
Definition otherwise_handler : handler test_den :=
  logged_otherwise "otherwise_handler" 1%Z.

End SumType.

(** ** ftl::maybe: the remaining constructors and the free functions *)
Module MaybeFunctions.
Import Maybe.

(** [Orderable]: operator< and operator> of the value type. *)
Class Orderable (A : Type) := {
  value_lt : A → A → bool;
  value_gt : A → A → bool;
}.

(** [monoid<A>::append] of the value type. *)
Class Monoid (A : Type) := {
  value_append : A → A → A;
}.

(** [std::is_nothrow_move_constructible<A>::value], the condition of the
    noexcept specifier of two functions that copy. *)
Class NothrowMove (A : Type) := {
  nothrow_move_constructible : bool;
}.

#[export] Instance int_NothrowMove : NothrowMove Z :=
  {| nothrow_move_constructible := true |}.

(** [Scarce] has a copy constructor that can throw and a move constructor
    that cannot. *)
#[export] Instance Scarce_NothrowMove : NothrowMove Scarce :=
  {| nothrow_move_constructible := true |}.

#[export] Instance int_Orderable : Orderable Z :=
  {| value_lt := Z.ltb; value_gt := Z.gtb |}.

(** The sum monoid on [int]. *)
#[export] Instance int_Monoid : Monoid Z := {| value_append := Z.add |}.

Local Notation "x <- c1 ;; c2" := (bind c1 (λ x, c2))
  (at level 100, c1 at next level, right associativity).

Section constructors.
Context {A : Type} `{ValueType A}.

(** An exception that meets a noexcept boundary. *)
Definition terminate {R : Type} : cmd (A := A) R := λ _, Terminates.

Context `{NothrowMove A}.

(** [explicit constexpr maybe(const value_type&& v)
      noexcept(std::is_nothrow_move_constructible<A>::value)]:
    [std::move(v)] of a const rvalue is a const rvalue, which only the copy
    constructor of value_type accepts.  The noexcept specifier speaks of
    the move constructor: when the copy throws and the move constructor is
    noexcept, the exception meets the specifier and std::terminate is
    called. *)
Definition maybe_value_rvalue (this : addr) (v : A) : cmd (A := A) unit :=
  match copy_construct v with
  | Some b => constructor this (Maybe (constructed b) true) (ret tt)
  | None =>
      if nothrow_move_constructible then terminate
      else throw value_type_exn
  end.

(** [static constexpr maybe<A> nothing() noexcept], returning into the slot
    [result]. *)
Definition nothing (result : addr) : cmd (A := A) unit := maybe_default result.

(** [constexpr maybe<A> value(const A& a)] *)
Definition value (result : addr) (a : A) : cmd (A := A) unit := maybe_value result a.

(** [constexpr maybe<A> value(A&& a)
      noexcept(std::is_nothrow_move_constructible<A>::value)]: it returns
    [maybe<A>(std::move(a))], built by the constructor above under the same
    noexcept condition. *)
Definition value_rvalue (result : addr) (a : A) : cmd (A := A) unit :=
  maybe_value_rvalue result a.

(** What a maybe holds, when its flag and its storage agree. *)
Definition contents (o : maybe A) : option A :=
  match o with
  | Maybe (constructed a) true => Some a
  | _ => None
  end.

(** Every object of the store satisfies the class invariant. *)
Definition store_ok (h : gmap addr (maybe A)) : Prop :=
  map_Forall (λ _ o, valid_state o = true) h.



End constructors.

Section ordering.
Context {A : Type} `{ValueType A} `{Orderable A}.

(** [bool operator< (const maybe<A>& m1, const maybe<A>& m2)] *)
Definition operator_lt (m1 m2 : addr) : cmd (A := A) bool :=
  b1 <- operator_bool m1;;
  if b1 : bool then
    b2 <- operator_bool m2;;
    if b2 : bool then
      r1 <- operator_star m1;;
      r2 <- operator_star m2;;
      a <- read r1;;
      b <- read r2;;
      ret (value_lt a b)
    else ret false
  else
    b2 <- operator_bool m2;;
    if b2 : bool then ret true else ret false.

(** [bool operator> (const maybe<A>& m1, const maybe<A>& m2)] *)
Definition operator_gt (m1 m2 : addr) : cmd (A := A) bool :=
  b1 <- operator_bool m1;;
  if b1 : bool then
    b2 <- operator_bool m2;;
    if b2 : bool then
      r1 <- operator_star m1;;
      r2 <- operator_star m2;;
      a <- read r1;;
      b <- read r2;;
      ret (value_gt a b)
    else ret true
  else
    b2 <- operator_bool m2;;
    if b2 : bool then ret false else ret false.

End ordering.

(** Exactly one of three answers is true. *)
Definition exactly_one (x y z : bool) : bool :=
  (x && negb y && negb z) || (negb x && y && negb z)
  || (negb x && negb y && z).

Section functor.
Context {A B : Type} `{ValueType A} `{ValueType B} `{NothrowMove B}.

(** The test and read [m ? f( *m) : ...] performs on [m]; it leaves the store
    of [m] as it is. *)
Definition applied (f : A → B) (m : addr) : cmd (A := A) (option B) :=
  b <- operator_bool m;;
  if b : bool then
    r <- operator_star m;;
    a <- read r;;
    ret (Some (f a))
  else ret None.

(** [maybe<B> fmap(const F& f, const maybe<A>& m)]:
    [return m ? maybe<B>(f( *m)) : maybe<B>::nothing();].  [m] lives in the
    store [h] of maybe<A>; the result is built in the slot [result] of a
    store of maybe<B>, the temporaries of the return statement being
    constructed in place there. *)
Definition fmap (f : A → B) (m : addr) (result : addr)
    (h : gmap addr (maybe A)) : cmd (A := B) unit :=
  match applied f m h with
  | Returns (Some b) _ => maybe_value_rvalue result b
  | Returns None _ => nothing result
  | Throws e _ => throw e
  | Undefined => λ _, Undefined
  | Terminates => terminate
  end.

(** [maybe<B> bind(const maybe<A>& m, const F& f)]:
    [if(m) return value(f( *m)); return maybe<B>();] *)
Definition bind_ (m : addr) (f : A → B) (result : addr)
    (h : gmap addr (maybe A)) : cmd (A := B) unit :=
  match applied f m h with
  | Returns (Some b) _ => value_rvalue result b
  | Returns None _ => maybe_default result
  | Throws e _ => throw e
  | Undefined => λ _, Undefined
  | Terminates => terminate
  end.

End functor.

Section monoid.
Context {A : Type} `{ValueType A} `{Monoid A} `{NothrowMove A}.

(** [static constexpr maybe<A> id()] of [monoid<maybe<A>>] *)
Definition id_ (result : addr) : cmd (A := A) unit := maybe_default result.

(** [static maybe<A> append(const maybe<A>& m1, const maybe<A>& m2)] of
    [monoid<maybe<A>>]; [return m1;] copy-constructs the result, and the
    temporary of the first return statement is constructed in place in the
    slot [result]. *)
Definition append (m1 m2 : addr) (result : addr) : cmd (A := A) unit :=
  b1 <- operator_bool m1;;
  if b1 : bool then
    b2 <- operator_bool m2;;
    if b2 : bool then
      r1 <- operator_star m1;;
      r2 <- operator_star m2;;
      a <- read r1;;
      b <- read r2;;
      maybe_value_rvalue result (value_append a b)
    else maybe_copy result m1
  else
    b2 <- operator_bool m2;;
    if b2 : bool then maybe_copy result m2 else maybe_default result.

(** [maybe<A> operator^ (const maybe<A>& m1, const maybe<A>& m2)] *)
Definition operator_xor (m1 m2 : addr) (result : addr) : cmd (A := A) unit :=
  append m1 m2 result.

End monoid.

(** A value type whose move constructor throws on a pinned value; copying
    never throws. *)
Record Pinned := { pinned : bool }.

#[export] Instance Pinned_ValueType : ValueType Pinned :=
  {| copy_construct := Some;
     move_construct := λ x, if pinned x then (None, x) else (Some x, x);
     value_eq := λ x y, Bool.eqb (pinned x) (pinned y) |}.

#[export] Instance Pinned_NothrowMove : NothrowMove Pinned :=
  {| nothrow_move_constructible := false |}.

(** *** Stores used in concrete runs *)

(** A store with a maybe holding a pinned value at 1. *)
Definition pinned_store : gmap nat (maybe Pinned) :=
  {[1 := Maybe (constructed {| pinned := true |}) true]}.

(** A store with an empty maybe<int> at 0, one holding 5 at 1 and one
    holding 7 at 2. *)
Definition ordered_store : gmap nat (maybe Z) :=
  {[0 := Maybe dummy false; 1 := Maybe (constructed 5%Z) true;
    2 := Maybe (constructed 7%Z) true]}.

End MaybeFunctions.

(** * Properties of ftl::maybe *)

Section maybe_properties.
Import Maybe.
Context {A : Type} `{ValueType A}.
Implicit Types (h : gmap nat (maybe A)) (o : maybe A).

(** Stepping through a member function on a symbolic store. *)
Ltac unfold_cmds :=
  unfold operator_assign, operator_assign_move, operator_eq, operator_ne,
    operator_star, operator_arrow, operator_bool, isValue, isNothing,
    maybe_move, maybe_copy, maybe_default, constructor, destructor,
    placement_move, placement_copy, destroy_val, and_also, not_, read,
    bind, ret, throw, get_isValid, set_isValid, read_val, write_val.

Ltac step :=
  repeat first
    [ progress simpl
    | rewrite lookup_insert_eq
    | rewrite lookup_insert_ne by congruence
    | match goal with
      | Hl : ?h !! ?p = _ |- context [?h !! ?p] => rewrite Hl
      | Hc : move_construct ?a = _ |- context [move_construct ?a] =>
          rewrite Hc
      | Hc : copy_construct ?a = _ |- context [copy_construct ?a] =>
          rewrite Hc
      end ].

Ltac same_store :=
  f_equal; apply map_eq; intros k;
  repeat match goal with
    | |- context [<[?p := _]> _ !! k] =>
        destruct (decide (p = k)) as [->|?]; step; try done
    end.

(** C7: self-assignment, by copy or by move, returns at the [this == &m]
    test: the store, and with it the alternative and the value of [x], is
    exactly what it was; nothing is destroyed or rebuilt. *)
Theorem self_assignment_is_noop h (x : nat) :
  operator_assign x x h = Returns None h
  ∧ operator_assign_move x x h = Returns None h.
Proof.
  unfold operator_assign, operator_assign_move.
  destruct (decide (x = x)) as [_|Hne]; [split; reflexivity | by destruct Hne].
Qed.

(** C9: on nothing, operator* and operator-> throw std::logic_error and leave
    the object as it was; on a value they return the reference (pointer) to
    the [val] member of [this], through which the contained value is read,
    and leave the store unchanged. *)
Theorem dereference_is_guarded h (this : nat) o :
  h !! this = Some o →
  if isValid o then
    operator_star this h = Returns (val_of this) h
    ∧ operator_arrow this h = Returns (val_of this) h
    ∧ read (val_of this) h =
        match val o with
        | constructed a => Returns a h
        | dummy => Undefined
        end
  else
    operator_star this h =
      Throws (logic_error "Attempting to read the value of Nothing.") h
    ∧ operator_arrow this h =
        Throws (logic_error "Attempting to read teh value of Nothing.") h.
Proof.
  intros Hthis. unfold_cmds. rewrite Hthis.
  destruct o as [[|a] [|]]; simpl; auto.
Qed.

(** C4: on two maybes, operator== is false when the flags differ, whatever
    the payloads; with both flags set it is the value type's own operator==
    on the two contained values; two nothings are equal.  operator!= is the
    negation of operator==.  Neither changes the store. *)
Theorem equality_compares_tag_then_value h (p1 p2 : nat) o1 o2 :
  h !! p1 = Some o1 →
  h !! p2 = Some o2 →
  operator_eq p1 p2 h =
    (if bool_decide (isValid o1 = isValid o2) then
       if isValid o1 then
         match val o1, val o2 with
         | constructed a, constructed b => Returns (value_eq a b) h
         | _, _ => Undefined
         end
       else Returns true h
     else Returns false h)
  ∧ operator_ne p1 p2 h =
      match operator_eq p1 p2 h with
      | Returns b h' => Returns (negb b) h'
      | Throws e h' => Throws e h'
      | Undefined => Undefined
      | Terminates => Terminates
      end.
Proof.
  intros Hp1 Hp2. split; [|reflexivity].
  unfold_cmds.
  destruct o1 as [[|a] [|]], o2 as [[|b] [|]];
    repeat (progress (rewrite ?Hp1, ?Hp2; simpl)); reflexivity.
Qed.

(** The store after a completed move assignment from a source that holds a
    value: the destination holds the moved value and the source has its
    flag cleared over the moved-from value. *)
Lemma operator_assign_move_value h (this m : nat) dst a b a' :
  this ≠ m →
  h !! this = Some dst →
  valid_state dst = true →
  h !! m = Some (Maybe (constructed a) true) →
  move_construct a = (Some b, a') →
  operator_assign_move this m h =
    Returns (Some this)
      (<[m := Maybe (constructed a') false]>
         (<[this := Maybe (constructed b) true]> h)).
Proof.
  intros Hne Hthis Hdst Hm Hmove.
  unfold operator_assign_move. rewrite decide_False by done.
  unfold_cmds.
  destruct dst as [[|d] [|]]; try discriminate; step; same_store.
Qed.

(** The same for move construction into fresh storage. *)
Lemma maybe_move_value h (this m : nat) a b a' :
  h !! this = None →
  h !! m = Some (Maybe (constructed a) true) →
  move_construct a = (Some b, a') →
  maybe_move this m h =
    Returns tt
      (<[m := Maybe (constructed a') false]>
         (<[this := Maybe (constructed b) true]> h)).
Proof.
  intros Hthis Hm Hmove.
  assert (this ≠ m) as Hne by congruence.
  unfold_cmds. step. same_store.
Qed.

(** C2, amended: a maybe that holds a value and is moved from, by move
    construction or by move assignment into another object, reports nothing
    afterwards: the library clears its flag.  Its storage keeps the value in
    the state the value type's move constructor leaves, and the destination
    holds the moved value. *)
Theorem moved_from_source_is_nothing h (this fresh m : nat) dst a b a' :
  this ≠ m →
  h !! this = Some dst →
  valid_state dst = true →
  h !! fresh = None →
  h !! m = Some (Maybe (constructed a) true) →
  move_construct a = (Some b, a') →
  ∃ h1 h2,
    operator_assign_move this m h = Returns (Some this) h1
    ∧ maybe_move fresh m h = Returns tt h2
    ∧ h1 !! m = Some (Maybe (constructed a') false)
    ∧ h2 !! m = Some (Maybe (constructed a') false)
    ∧ h1 !! this = Some (Maybe (constructed b) true)
    ∧ h2 !! fresh = Some (Maybe (constructed b) true)
    ∧ isNothing m h1 = Returns true h1
    ∧ isNothing m h2 = Returns true h2.
Proof.
  intros Hne Hthis Hdst Hfresh Hm Hmove.
  assert (fresh ≠ m) as Hne' by congruence.
  eexists _, _.
  split; [by eapply operator_assign_move_value|].
  split; [by eapply maybe_move_value|].
  unfold isNothing, bind, ret, get_isValid.
  repeat split; step; done.
Qed.

(** When the copy constructor of the value type throws, copy assignment into
    an empty destination has already set the destination's flag: the
    exception leaves with the flag set over storage that holds no value. *)
Lemma operator_assign_throw_into_nothing h (this m : nat) s a :
  this ≠ m →
  h !! this = Some (Maybe s false) →
  h !! m = Some (Maybe (constructed a) true) →
  copy_construct a = None →
  operator_assign this m h =
    Throws value_type_exn (<[this := Maybe s true]> h).
Proof.
  intros Hne Hthis Hm Hcopy.
  unfold operator_assign. rewrite decide_False by done.
  unfold_cmds. by step.
Qed.

End maybe_properties.

(** ** Concrete runs on maybe<int> and on a value type whose copy throws *)

Section maybe_runs.
Import Maybe.

(** C1: [dst = src] with [dst] nothing and [src] holding a value whose copy
    constructor throws.  The store is the one [scarce_setup] produces; the
    exception leaves operator= with [dst.isValid] already set over storage
    in which nothing was constructed, so [dst] is not the nothing it was,
    and running its destructor is undefined. *)
Theorem assignment_throw_leaves_flag_set :
  scarce_setup ∅ = Returns tt scarce_store
  ∧ isValue 0 scarce_store = Returns false scarce_store
  ∧ operator_assign 0 1 scarce_store =
      Throws value_type_exn (<[0 := Maybe dummy true]> scarce_store)
  ∧ isValue 0 (<[0 := Maybe dummy true]> scarce_store) =
      Returns true (<[0 := Maybe dummy true]> scarce_store)
  ∧ valid_state (Maybe (A := Scarce) dummy true) = false
  ∧ destructor 0 (<[0 := Maybe dummy true]> scarce_store) = Undefined.
Proof. repeat split; vm_compute; reflexivity. Qed.

(** C2, as stated, fails: moving from the maybe<int> that holds 5, by move
    construction into fresh storage at 2 or by move assignment into the
    object at 0, completes and leaves the source's flag cleared. *)
Lemma moved_from_keeps_tag_counterexample :
  ¬ (∀ h', maybe_move 2 1 int_store = Returns tt h' →
           isValid <$> h' !! 1 = isValid <$> int_store !! 1)
  ∧ ¬ (∀ r h', operator_assign_move 0 1 int_store = Returns r h' →
               isValid <$> h' !! 1 = isValid <$> int_store !! 1).
Proof.
  split; intros Hkeep.
  - specialize (Hkeep _ (maybe_move_value int_store 2 1 5%Z 5%Z 5%Z
                           eq_refl eq_refl eq_refl)).
    vm_compute in Hkeep. discriminate.
  - specialize (Hkeep _ _ (operator_assign_move_value int_store 0 1
                             (Maybe dummy false) 5%Z 5%Z 5%Z
                             ltac:(discriminate) eq_refl eq_refl eq_refl
                             eq_refl)).
    vm_compute in Hkeep. discriminate.
Qed.

(** The amended C2 on the store with an empty maybe<int> at 0 and 5 at 1. *)
Lemma moved_from_source_is_nothing_witness :
  ∃ h1 h2,
    operator_assign_move 0 1 int_store = Returns (Some 0) h1
    ∧ maybe_move 2 1 int_store = Returns tt h2
    ∧ h1 !! 1 = Some (Maybe (constructed 5%Z) false)
    ∧ h2 !! 1 = Some (Maybe (constructed 5%Z) false)
    ∧ h1 !! 0 = Some (Maybe (constructed 5%Z) true)
    ∧ h2 !! 2 = Some (Maybe (constructed 5%Z) true)
    ∧ isNothing 1 h1 = Returns true h1
    ∧ isNothing 1 h2 = Returns true h2.
Proof.
  apply (moved_from_source_is_nothing int_store 0 2 1 (Maybe dummy false)
           5%Z 5%Z 5%Z);
    [discriminate | reflexivity | reflexivity | reflexivity | reflexivity
    | reflexivity].
Defined.

(** C9 on the maybe<int> holding 5 and on the empty one. *)
Lemma dereference_is_guarded_witness :
  (operator_star 1 int_store = Returns (val_of 1) int_store
   ∧ operator_arrow 1 int_store = Returns (val_of 1) int_store
   ∧ read (val_of 1) int_store = Returns 5%Z int_store)
  ∧ (operator_star 0 int_store =
       Throws (logic_error "Attempting to read the value of Nothing.")
         int_store
     ∧ operator_arrow 0 int_store =
         Throws (logic_error "Attempting to read teh value of Nothing.")
           int_store).
Proof.
  split.
  - apply (dereference_is_guarded int_store 1
             (Maybe (constructed 5%Z) true)). reflexivity.
  - apply (dereference_is_guarded int_store 0 (Maybe dummy false)).
    reflexivity.
Defined.

(** C4 on an empty maybe<int> against one holding 5, and on the one holding
    5 against itself. *)
Lemma equality_compares_tag_then_value_witness :
  (operator_eq 0 1 int_store = Returns false int_store
   ∧ operator_ne 0 1 int_store = Returns true int_store)
  ∧ (operator_eq 1 1 int_store = Returns true int_store
     ∧ operator_ne 1 1 int_store = Returns false int_store).
Proof.
  split.
  - destruct (equality_compares_tag_then_value int_store 0 1
                (Maybe dummy false) (Maybe (constructed 5%Z) true)
                eq_refl eq_refl) as [Heq Hne].
    split; [exact Heq | rewrite Hne, Heq; reflexivity].
  - destruct (equality_compares_tag_then_value int_store 1 1
                (Maybe (constructed 5%Z) true) (Maybe (constructed 5%Z) true)
                eq_refl eq_refl) as [Heq Hne].
    split; [exact Heq | rewrite Hne, Heq; reflexivity].
Defined.

End maybe_runs.

(** * Properties of functor<std::unordered_map>::map *)

Section unordered_map_properties.
Import UnorderedMap.
Context {K : Type} `{Countable K} {T U : Type}.

(** The emplace loop keeps what the result already has and adds, for every
    other key, the image of the first element visited with that key. *)
Lemma emplace_loop_lookup (f : T → U) (kvs : list (K * T)) (rm : gmap K U) k :
  foldl (λ rm kv, emplace kv.1 (f kv.2) rm) rm kvs !! k =
    match rm !! k with
    | Some u => Some u
    | None => f <$> (list_to_map kvs : gmap K T) !! k
    end.
Proof.
  revert rm. induction kvs as [|[k0 v0] kvs IH]; intros rm; simpl.
  - rewrite lookup_empty. by destruct (rm !! k).
  - rewrite IH. unfold emplace.
    destruct (decide (k0 = k)) as [->|Hk].
    + rewrite lookup_insert_eq.
      destruct (rm !! k) eqn:Hrm; [by rewrite Hrm|].
      by rewrite lookup_insert_eq.
    + rewrite (lookup_insert_ne _ k0 k) by done.
      destruct (rm !! k0); [done|]. by rewrite lookup_insert_ne.
Qed.

(** Whatever order the elements of [m] are visited in, they are the elements
    of [m]. *)
Lemma visited_elements (m : gmap K T) (kvs : list (K * T)) :
  kvs ≡ₚ map_to_list m → NoDup kvs.*1 ∧ list_to_map kvs = m.
Proof.
  intros Hperm.
  assert (NoDup kvs.*1) as Hnodup.
  { rewrite Hperm. apply NoDup_fst_map_to_list. }
  split; [done|].
  rewrite (list_to_map_proper kvs (map_to_list m)) by done.
  apply list_to_map_to_list.
Qed.

Lemma emplace_loop_fmap (f : T → U) (m : gmap K T) (kvs : list (K * T)) :
  kvs ≡ₚ map_to_list m →
  foldl (λ rm kv, emplace kv.1 (f kv.2) rm) ∅ kvs = f <$> m.
Proof.
  intros [_ Hm]%visited_elements. apply map_eq; intros k.
  by rewrite emplace_loop_lookup, lookup_empty, Hm, lookup_fmap.
Qed.

(** The in-place loop rewrites exactly the elements it visits. *)
Lemma assign_loop_lookup (g : T → T) (kvs : list (K * T)) (m : gmap K T) k :
  NoDup kvs.*1 →
  foldl (λ m kv,
           match m !! kv.1 with
           | Some v => <[kv.1 := g v]> m
           | None => m
           end) m kvs !! k =
    if decide (k ∈ kvs.*1) then g <$> m !! k else m !! k.
Proof.
  revert m. induction kvs as [|[k0 v0] kvs IH]; intros m Hnodup;
    cbn [foldl]; rewrite ?fmap_cons in *; cbn [fst] in *.
  - rewrite decide_False; [done|]. apply not_elem_of_nil.
  - apply NoDup_cons in Hnodup as [Hk0 Hnodup]. rewrite IH by done.
    destruct (decide (k = k0)) as [->|Hk].
    + rewrite (decide_False (P := k0 ∈ kvs.*1)) by done.
      rewrite decide_True by (apply elem_of_cons; by left).
      destruct (m !! k0) eqn:Hm; [by rewrite lookup_insert_eq|].
      by rewrite Hm.
    + assert (match m !! k0 with
              | Some v => <[k0 := g v]> m
              | None => m
              end !! k = m !! k) as ->.
      { destruct (m !! k0); [by rewrite lookup_insert_ne|done]. }
      destruct (decide (k ∈ kvs.*1)) as [Hin|Hin].
      * rewrite decide_True; [done|]. apply elem_of_cons. by right.
      * rewrite decide_False; [done|].
        intros [?|?]%elem_of_cons; done.
Qed.

(** C10: for every order [kvs] in which the elements of [m] are visited, each
    overload returns the map with the keys of [m] in which every key is
    bound to [f] of the value [m] binds it to; the overload taking [m] by
    const reference leaves [m] as it was. *)
Theorem functor_map_applies_f_to_every_value
    (f : T → U) (g : T → T) (m : gmap K T) (kvs : list (K * T)) :
  kvs ≡ₚ map_to_list m →
  map_lvalue f m kvs = (f <$> m, m)
  ∧ map_rvalue f kvs = f <$> m
  ∧ map_rvalue_endo g m kvs = g <$> m
  ∧ dom (f <$> m) = dom m
  ∧ dom (g <$> m) = dom m
  ∧ ∀ k, (f <$> m) !! k = f <$> (m !! k) ∧ (g <$> m) !! k = g <$> (m !! k).
Proof.
  intros Hperm. unfold map_lvalue, map_rvalue, map_rvalue_endo.
  rewrite !(emplace_loop_fmap f m kvs Hperm).
  split; [done|]. split; [done|]. split.
  - destruct (visited_elements m kvs Hperm) as [Hnodup _].
    apply map_eq; intros k.
    rewrite assign_loop_lookup, lookup_fmap by done.
    destruct (decide (k ∈ kvs.*1)) as [|Hin]; [done|].
    destruct (m !! k) as [v|] eqn:Hk; [|done].
    destruct Hin. rewrite Hperm. apply list_elem_of_fmap.
    exists (k, v). split; [done|]. by apply elem_of_map_to_list.
  - rewrite !dom_fmap_L. split; [done|]. split; [done|].
    intros k. by rewrite !lookup_fmap.
Qed.

End unordered_map_properties.

Section unordered_map_runs.
Import UnorderedMap.

(** C10 on the map 1 -> 10, 2 -> 20, visited in the order 1, 2. *)
Lemma functor_map_applies_f_to_every_value_witness :
  map_lvalue Z.succ prices [(1, 10%Z); (2, 20%Z)] =
    ({[1 := 11%Z; 2 := 21%Z]}, prices)
  ∧ map_rvalue Z.succ [(1, 10%Z); (2, 20%Z)] = {[1 := 11%Z; 2 := 21%Z]}
  ∧ map_rvalue_endo Z.double prices [(1, 10%Z); (2, 20%Z)] =
      {[1 := 20%Z; 2 := 40%Z]}.
Proof.
  destruct (functor_map_applies_f_to_every_value Z.succ Z.double prices
              [(1, 10%Z); (2, 20%Z)]) as (H1 & H2 & H3 & _).
  { vm_compute. apply perm_swap. }
  rewrite H1, H2, H3. vm_compute. auto.
Defined.
End unordered_map_runs.

(** * Properties of ftl::sum_type *)

Section sum_type_properties.
Import SumType.
Context {ty : Type} `{EqDecision ty} (den : ty → Type).
Implicit Types (Ts : list ty) (T : ty) (x : sum_type den).

Lemma index_of_lookup T Ts i : index_of T Ts = Some i → Ts !! i = Some T.
Proof.
  revert i. induction Ts as [|T' Ts IH]; intros i; simpl; [done|].
  destruct (decide (T = T')) as [->|Hne].
  - by intros [= <-].
  - destruct (index_of T Ts) as [j|]; simpl; [|done].
    intros [= <-]. by apply IH.
Qed.

Lemma index_of_NoDup T Ts i :
  NoDup Ts → Ts !! i = Some T → index_of T Ts = Some i.
Proof.
  intros Hnodup. revert i.
  induction Hnodup as [|T' Ts Hnotin Hnodup IH]; intros i; [done|].
  destruct i as [|i]; simpl.
  - intros [= ->]. by rewrite decide_True.
  - intros Hi. rewrite decide_False.
    + by rewrite (IH i Hi).
    + intros ->. apply Hnotin. by eapply list_elem_of_lookup_2.
Qed.

(** C5: over distinct alternatives, the instance constructed with the tag of
    the alternative at index [i] answers true to [is] for that alternative
    and false for the alternative at every other index; [is<T>()] is true
    exactly when [T] is the alternative in the storage. *)
Theorem is_identifies_active_alternative Ts (i : nat) T (v : den T) :
  distinct_alternatives Ts = true →
  Ts !! i = Some T →
  ∃ x, construct den Ts T v = Some x
       ∧ tag x = i
       ∧ storage x = existT T v
       ∧ is_ den Ts T x = true
       ∧ (∀ j T', Ts !! j = Some T' → j ≠ i → is_ den Ts T' x = false)
       ∧ (∀ T', is_ den Ts T' x = true ↔ T' = projT1 (storage x)).
Proof.
  intros Hnodup%bool_decide_eq_true Hi.
  pose proof (index_of_NoDup T Ts i Hnodup Hi) as Hidx.
  exists (SumType i (existT T v)). unfold construct, is_. rewrite Hidx. simpl.
  repeat split.
  - by apply bool_decide_eq_true.
  - intros j T' Hj Hne. apply bool_decide_eq_false.
    rewrite (index_of_NoDup T' Ts j Hnodup Hj). congruence.
  - intros Hidx'%bool_decide_eq_true%index_of_lookup. congruence.
  - intros ->. by apply bool_decide_eq_true.
Qed.

Section match_properties.
Context {R S : Type}.
Implicit Types (hs : list (handler den (R := R) (S := S))).

Lemma exhaustive_covered Ts hs T :
  exhaustive den Ts hs = true → T ∈ Ts → covered den hs T = true.
Proof.
  unfold exhaustive. intros [Hall _]%andb_prop Hin.
  rewrite forallb_forall in Hall. apply Hall. by apply list_elem_of_In.
Qed.

Lemma invoke_on T (v : den T) f (s : S) :
  invoke den (on T f) (existT T v) s = Some (f v s : R * S).
Proof.
  unfold invoke. simpl. destruct (decide (T = T)) as [e|]; [|done].
  by rewrite (proof_irrel e eq_refl).
Qed.

(** C3: when the handler set passes the coverage check and contains a
    callable for the alternative the tag identifies, that callable is the
    only one resolved for the alternative, and match is one application of
    it to the stored value, on the state the callables act on: its result
    is returned and no other callable has acted. *)
Theorem match_invokes_handler_of_active_alternative
    Ts hs x T (v : den T) f (s : S) :
  exhaustive den Ts hs = true →
  well_tagged den Ts x →
  storage x = existT T v →
  on T f ∈ hs →
  explicit_for den T hs = [on T f]
  ∧ resolve den T hs = Some (on T f)
  ∧ match_ den Ts hs x s = Some (f v s).
Proof.
  intros Hex Htag Hst Hin.
  unfold well_tagged in Htag. rewrite Hst in Htag. simpl in Htag.
  assert (explicit_for den T hs = [on T f]) as Hexp.
  { pose proof (exhaustive_covered Ts hs T Hex) as Hcov.
    unfold covered in Hcov.
    assert (on T f ∈ explicit_for den T hs) as Hin'.
    { unfold explicit_for. apply list_elem_of_filter. by split. }
    destruct (explicit_for den T hs) as [|h [|h' l]].
    - by apply elem_of_nil in Hin'.
    - by apply list_elem_of_singleton in Hin' as <-.
    - simpl in Hcov. discriminate Hcov. by eapply list_elem_of_lookup_2. }
  assert (resolve den T hs = Some (on T f)) as Hres.
  { unfold resolve. by rewrite Hexp. }
  split; [done|]. split; [done|].
  unfold match_. rewrite Hex, Htag. simpl. rewrite Hres. simpl.
  rewrite Hst. apply invoke_on.
Qed.

(** C6: when the handler set passes the coverage check and has no callable
    of its own for the alternative the tag identifies, the fallback is the
    callable resolved for it, and match is one application of the
    fallback; no callable written for another alternative has acted. *)
Theorem match_falls_back_to_otherwise Ts hs x g (s : S) :
  exhaustive den Ts hs = true →
  well_tagged den Ts x →
  explicit_for den (projT1 (storage x)) hs = [] →
  otherwise g ∈ hs →
  fallbacks den hs = [otherwise g]
  ∧ resolve den (projT1 (storage x)) hs = Some (otherwise g)
  ∧ match_ den Ts hs x s = Some (g s).
Proof.
  intros Hex Htag Hnone Hin.
  assert (fallbacks den hs = [otherwise g]) as Hfb.
  { assert (otherwise g ∈ fallbacks den hs) as Hin'.
    { unfold fallbacks. apply list_elem_of_filter. by split. }
    pose proof Hex as Hone. unfold exhaustive in Hone.
    apply andb_prop in Hone as [_ Hone]. apply bool_decide_eq_true in Hone.
    destruct (fallbacks den hs) as [|h [|h' l]].
    - by apply elem_of_nil in Hin'.
    - by apply list_elem_of_singleton in Hin' as <-.
    - simpl in Hone. lia. }
  assert (resolve den (projT1 (storage x)) hs = Some (otherwise g)) as Hres.
  { unfold resolve. by rewrite Hnone, Hfb. }
  split; [done|]. split; [done|].
  unfold match_. unfold well_tagged in Htag.
  rewrite Hex, Htag. simpl. by rewrite Hres.
Qed.

End match_properties.

End sum_type_properties.

(** ** Concrete runs of the sum type *)

Section sum_type_runs.
Import SumType.

(** The cases of tests/sum_type_tests.cpp that exercise construction,
    [is] and [match] all pass. *)
Example sum_type_tests_pass :
  test_static_assertions = Some true
  ∧ test_is = Some true
  ∧ test_match_trivial = Some true
  ∧ test_match_non_trivial = Some true
  ∧ test_match_otherwise = Some true.
Proof. repeat split; vm_compute; reflexivity. Qed.

(** C5 on [sum_type<int,char>{type<char>, 'b'}]. *)
Lemma is_identifies_active_alternative_witness :
  ∃ x, construct test_den [int_; char_] char_ "b"%char = Some x
       ∧ tag x = 1
       ∧ is_ test_den [int_; char_] char_ x = true
       ∧ is_ test_den [int_; char_] int_ x = false.
Proof.
  destruct (is_identifies_active_alternative test_den [int_; char_] 1 char_
              "b"%char)
    as (x & Hx & Htag & _ & His & Hother & _);
    [vm_compute; reflexivity | reflexivity |].
  exists x. repeat split; [exact Hx | exact Htag | exact His |].
  apply (Hother 0 int_); [reflexivity | discriminate].
Defined.

(** C3 on [sum_type<int,char>{type<int>, 5}]: of the two logging callables
    only [h_int] has run, once, on 5. *)
Lemma match_invokes_handler_of_active_alternative_witness :
  construct test_den [int_; char_] int_ 5%Z = Some int_five
  ∧ match_ test_den [int_; char_] [h_int; h_char] int_five [] =
      Some (true, ["h_int"]).
Proof.
  split; [reflexivity|].
  refine (proj2 (proj2 (match_invokes_handler_of_active_alternative test_den
           [int_; char_] [h_int; h_char] int_five int_ 5%Z
           (λ v log, (wasInt v, log ++ ["h_int"])) [] _ _ _ _)));
    [vm_compute; reflexivity | reflexivity | reflexivity
    | apply elem_of_cons; left; reflexivity].
Defined.

(** C6 on [sum_type<A,B,C>{type<B>}]: the fallback has run, the callable
    for [A] has not. *)
Lemma match_falls_back_to_otherwise_witness :
  construct test_den [A_; B_; C_] B_ tt = Some active_B
  ∧ match_ test_den [A_; B_; C_] [handler_for_A; otherwise_handler]
      active_B [] = Some (1%Z, ["otherwise_handler"]).
Proof.
  split; [reflexivity|].
  refine (proj2 (proj2 (match_falls_back_to_otherwise test_den [A_; B_; C_]
           [handler_for_A; otherwise_handler] active_B
           (λ log, (1%Z, log ++ ["otherwise_handler"])) [] _ _ _ _)));
    [vm_compute; reflexivity | reflexivity | vm_compute; reflexivity
    | apply elem_of_cons; right; apply elem_of_cons; left; reflexivity].
Defined.

End sum_type_runs.

(** * Further properties of ftl::maybe: construction, destruction, assignment *)

Section maybe_lifecycle.
Import Maybe MaybeFunctions.
Context {A : Type} `{ValueType A} `{NothrowMove A}.
Implicit Types (h : gmap nat (maybe A)) (o dst src : maybe A).

Ltac unfold_members :=
  unfold operator_assign, operator_assign_move, operator_star,
    operator_bool, isValue, isNothing, maybe_move, maybe_copy, maybe_value,
    maybe_default, constructor, destructor, placement_move, placement_copy,
    destroy_val, read, bind, ret, throw, get_isValid, set_isValid,
    read_val, write_val.

Ltac run :=
  repeat first
    [ progress simpl
    | rewrite lookup_insert_eq
    | rewrite lookup_insert_ne by congruence
    | rewrite lookup_delete_eq
    | rewrite lookup_delete_ne by congruence
    | match goal with
      | Hl : ?h !! ?p = _ |- context [?h !! ?p] => rewrite Hl
      | Hc : move_construct ?a = _ |- context [move_construct ?a] =>
          rewrite Hc
      | Hc : copy_construct ?a = _ |- context [copy_construct ?a] =>
          rewrite Hc
      end ].

Ltac stores_agree :=
  f_equal; apply map_eq; intros k;
  repeat match goal with
    | |- context [<[?p := _]> _ !! k] =>
        destruct (decide (p = k)) as [->|?]; run; try done
    | |- context [delete ?p _ !! k] =>
        destruct (decide (p = k)) as [->|?]; run; try done
    end.

(** X1: the copy constructor builds, in fresh storage, a maybe with the flag of
    the source and, when the source holds a value, the copy of that value;
    the source and every other object are as before.  When the copy
    constructor of the value type throws, the exception propagates, no
    object has come to life and the store is exactly the one before the
    call. *)
Theorem copy_constructor_copies h (this m : nat) src :
  h !! this = None →
  h !! m = Some src →
  valid_state src = true →
  maybe_copy this m h =
    match contents src with
    | Some a =>
        match copy_construct a with
        | Some b => Returns tt (<[this := Maybe (constructed b) true]> h)
        | None => Throws value_type_exn h
        end
    | None => Returns tt (<[this := Maybe dummy false]> h)
    end.
Proof.
  intros Hthis Hm Hok. assert (this ≠ m) by congruence.
  destruct src as [[|a] [|]]; try discriminate; simpl;
    try destruct (copy_construct a) as [b|] eqn:Hcopy;
    unfold_members; run; stores_agree.
Qed.

(** X2: the destructor runs the destructor of the value type exactly when
    the flag is set.  On an object that satisfies the class invariant it
    therefore completes and releases the object, whichever alternative it
    holds, touching no other object; on an object whose flag is set over
    storage in which no value was constructed it destroys a value that is
    not there, which is undefined. *)
Theorem destructor_releases h (this : nat) o :
  h !! this = Some o →
  destructor this h =
    if valid_state o then Returns tt (delete this h) else Undefined.
Proof.
  intros Hthis.
  destruct o as [[|a] [|]]; simpl; unfold_members; run; try reflexivity;
    stores_agree.
Qed.

(** X4: a maybe constructed from a value holds the copy of that value: it
    reports a value, and reading through operator* gives the copy.  The
    constructor from an rvalue and both overloads of [value] build the same
    object: they copy as well. *)
Theorem value_constructor_round_trip h (this : nat) a b :
  h !! this = None →
  copy_construct a = Some b →
  ∃ h', maybe_value this a h = Returns tt h'
        ∧ maybe_value_rvalue this a h = Returns tt h'
        ∧ value this a h = Returns tt h'
        ∧ value_rvalue this a h = Returns tt h'
        ∧ isValue this h' = Returns true h'
        ∧ isNothing this h' = Returns false h'
        ∧ bind (operator_star this) read h' = Returns b h'.
Proof.
  intros Hthis Hcopy. eexists.
  assert (maybe_value this a h =
            Returns tt (<[this := Maybe (constructed b) true]> h)) as Hv.
  { unfold_members. run. reflexivity. }
  assert (maybe_value_rvalue this a h =
            Returns tt (<[this := Maybe (constructed b) true]> h)) as Hr.
  { unfold maybe_value_rvalue. unfold_members. run. reflexivity. }
  split; [exact Hv|]. split; [exact Hr|]. split; [exact Hv|].
  split; [exact Hr|].
  unfold_members. run. done.
Qed.

(** X5: a copy assignment whose source holds a value that can be copied
    first destroys the value the destination holds, when its flag is set,
    and then leaves the destination holding the copy; the source and every
    other object are as before.  The destruction is a step of its own: on a
    destination whose flag is set over storage in which no value was
    constructed, it makes the assignment undefined. *)
Theorem copy_assignment_from_value h (this m : nat) dst a b :
  this ≠ m →
  h !! this = Some dst →
  h !! m = Some (Maybe (constructed a) true) →
  copy_construct a = Some b →
  operator_assign this m h =
    if valid_state dst then
      Returns (Some this) (<[this := Maybe (constructed b) true]> h)
    else Undefined.
Proof.
  intros Hne Hthis Hm Hcopy.
  unfold operator_assign. rewrite decide_False by done.
  destruct dst as [[|d] [|]]; simpl; unfold_members; run; try reflexivity;
    stores_agree.
Qed.

(** X6: assigning from a source that is nothing, by copy or by move, destroys
    the value the destination held, if any, and leaves the destination
    nothing; the source and every other object are as before. *)
Theorem assignment_from_nothing h (this m : nat) dst s :
  this ≠ m →
  h !! this = Some dst →
  valid_state dst = true →
  h !! m = Some (Maybe s false) →
  operator_assign this m h =
    Returns (Some this)
      (<[this := Maybe (if isValid dst then dummy else val dst) false]> h)
  ∧ operator_assign_move this m h =
      Returns (Some this)
        (<[this := Maybe (if isValid dst then dummy else val dst) false]> h).
Proof.
  intros Hne Hthis Hok Hm.
  unfold operator_assign, operator_assign_move. rewrite !decide_False by done.
  destruct dst as [[|d] [|]]; try discriminate;
    split; unfold_members; run; stores_agree.
Qed.

(** X7: an assignment never touches an object other than its operands: copy
    assignment changes at most the destination, also when it throws, so the
    source is never modified; move assignment changes at most the
    destination and the source. *)
Theorem assignment_frame h (this m : nat) :
  match operator_assign this m h with
  | Returns _ h' | Throws _ h' => ∀ p, p ≠ this → h' !! p = h !! p
  | Undefined | Terminates => True
  end
  ∧ match operator_assign_move this m h with
    | Returns _ h' | Throws _ h' =>
        ∀ p, p ≠ this → p ≠ m → h' !! p = h !! p
    | Undefined | Terminates => True
    end.
Proof.
  unfold operator_assign, operator_assign_move.
  destruct (decide (this = m)) as [->|Hne]; [by split|].
  destruct (h !! this) as [[[|d] [|]]|] eqn:Hthis;
    destruct (h !! m) as [[[|a] [|]]|] eqn:Hm;
    try destruct (copy_construct a) as [b|] eqn:Hcopy;
    try destruct (move_construct a) as [[b'|] a'] eqn:Hmove;
    split; unfold_members; run; try done; intros p; intros; by run.
Qed.

(** X8: moving from a source whose value type's move constructor throws, into
    fresh storage: the exception propagates, no object has come to life,
    and the source still reports a value, left in the state the throwing
    move constructor put it in. *)
Theorem move_constructor_throw h (this m : nat) a a' :
  h !! this = None →
  h !! m = Some (Maybe (constructed a) true) →
  move_construct a = (None, a') →
  maybe_move this m h =
    Throws value_type_exn (<[m := Maybe (constructed a') true]> h).
Proof.
  intros Hthis Hm Hmove. assert (this ≠ m) by congruence.
  unfold_members. run. stores_agree.
Qed.

(** X9: move construction from a source that is nothing builds nothing and
    leaves the source as it was. *)
Theorem move_constructor_from_nothing h (this m : nat) s :
  h !! this = None →
  h !! m = Some (Maybe s false) →
  maybe_move this m h = Returns tt (<[this := Maybe dummy false]> h).
Proof.
  intros Hthis Hm. assert (this ≠ m) by congruence.
  unfold_members. run. stores_agree.
Qed.




End maybe_lifecycle.

(** * Further properties of ftl::maybe: the order *)

Section maybe_ordering.
Import Maybe MaybeFunctions.
Context {A : Type} `{ValueType A} `{Orderable A}.
Implicit Types (h : gmap nat (maybe A)) (o : maybe A).

Ltac unfold_comparisons :=
  unfold operator_lt, operator_gt, operator_eq, operator_star,
    operator_bool, isValue, and_also, not_, read, bind, ret, throw,
    get_isValid, read_val.

Ltac look :=
  repeat first
    [ progress simpl
    | match goal with
      | Hl : ?h !! ?p = _ |- context [?h !! ?p] => rewrite Hl
      end ].

Lemma operator_lt_spec h (p1 p2 : nat) o1 o2 :
  h !! p1 = Some o1 →
  h !! p2 = Some o2 →
  valid_state o1 = true →
  valid_state o2 = true →
  operator_lt p1 p2 h =
    Returns (match contents o1, contents o2 with
             | Some a, Some b => value_lt a b
             | None, Some _ => true
             | _, None => false
             end) h.
Proof.
  intros Hp1 Hp2 Hok1 Hok2.
  destruct o1 as [[|a] [|]], o2 as [[|b] [|]]; try discriminate;
    unfold_comparisons; look; reflexivity.
Qed.

Lemma operator_gt_spec h (p1 p2 : nat) o1 o2 :
  h !! p1 = Some o1 →
  h !! p2 = Some o2 →
  valid_state o1 = true →
  valid_state o2 = true →
  operator_gt p1 p2 h =
    Returns (match contents o1, contents o2 with
             | Some a, Some b => value_gt a b
             | Some _, None => true
             | None, _ => false
             end) h.
Proof.
  intros Hp1 Hp2 Hok1 Hok2.
  destruct o1 as [[|a] [|]], o2 as [[|b] [|]]; try discriminate;
    unfold_comparisons; look; reflexivity.
Qed.

(** X11: operator< and operator> on two maybes that satisfy the class invariant:
    nothing is below every value and below nothing else; two values compare
    as the value type compares them.  Neither operator changes the store or
    throws. *)
Theorem order_puts_nothing_first h (p1 p2 : nat) o1 o2 :
  h !! p1 = Some o1 →
  h !! p2 = Some o2 →
  valid_state o1 = true →
  valid_state o2 = true →
  operator_lt p1 p2 h =
    Returns (match contents o1, contents o2 with
             | Some a, Some b => value_lt a b
             | None, Some _ => true
             | _, None => false
             end) h
  ∧ operator_gt p1 p2 h =
      Returns (match contents o1, contents o2 with
               | Some a, Some b => value_gt a b
               | Some _, None => true
               | None, _ => false
               end) h.
Proof.
  intros Hp1 Hp2 Hok1 Hok2.
  split; [by apply operator_lt_spec | by apply operator_gt_spec].
Qed.

(** X12: when operator> of the value type is the converse of its operator<, so
    is operator> of maybe: [m1 > m2] is [m2 < m1]. *)
Theorem greater_is_converse_of_less h (p1 p2 : nat) o1 o2 :
  (∀ a b : A, value_gt a b = value_lt b a) →
  h !! p1 = Some o1 →
  h !! p2 = Some o2 →
  valid_state o1 = true →
  valid_state o2 = true →
  operator_gt p1 p2 h = operator_lt p2 p1 h.
Proof.
  intros Hconv Hp1 Hp2 Hok1 Hok2.
  rewrite (operator_gt_spec h p1 p2 o1 o2) by done.
  rewrite (operator_lt_spec h p2 p1 o2 o1) by done.
  destruct o1 as [[|a] [|]], o2 as [[|b] [|]]; simpl; by rewrite ?Hconv.
Qed.

(** X13: when the value type is totally ordered (exactly one of [a < b],
    [a == b], [a > b] holds), so is maybe: of operator<, operator== and
    operator> exactly one answers true on any two maybes. *)
Theorem maybe_trichotomy h (p1 p2 : nat) o1 o2 :
  (∀ a b : A,
     exactly_one (value_lt a b) (value_eq a b) (value_gt a b) = true) →
  h !! p1 = Some o1 →
  h !! p2 = Some o2 →
  valid_state o1 = true →
  valid_state o2 = true →
  ∃ lt eq gt,
    operator_lt p1 p2 h = Returns lt h
    ∧ operator_eq p1 p2 h = Returns eq h
    ∧ operator_gt p1 p2 h = Returns gt h
    ∧ exactly_one lt eq gt = true.
Proof.
  intros Htri Hp1 Hp2 Hok1 Hok2.
  rewrite (operator_lt_spec h p1 p2 o1 o2) by done.
  rewrite (operator_gt_spec h p1 p2 o1 o2) by done.
  destruct o1 as [[|a] [|]], o2 as [[|b] [|]]; try discriminate;
    eexists _, _, _; (split; [reflexivity|]);
    (split; [unfold_comparisons; look; reflexivity|]);
    (split; [reflexivity|]); simpl; by rewrite ?Htri.
Qed.

(** X14: when operator< of the value type is irreflexive and transitive, so is
    operator< of maybe. *)
Theorem less_is_strict_order h (p1 p2 p3 : nat) o1 o2 o3 :
  (∀ a : A, value_lt a a = false) →
  (∀ a b c : A,
     value_lt a b = true → value_lt b c = true → value_lt a c = true) →
  h !! p1 = Some o1 →
  h !! p2 = Some o2 →
  h !! p3 = Some o3 →
  valid_state o1 = true →
  valid_state o2 = true →
  valid_state o3 = true →
  operator_lt p1 p2 h = Returns true h →
  operator_lt p2 p3 h = Returns true h →
  operator_lt p1 p3 h = Returns true h
  ∧ operator_lt p1 p1 h = Returns false h.
Proof.
  intros Hirr Htrans Hp1 Hp2 Hp3 Hok1 Hok2 Hok3.
  rewrite (operator_lt_spec h p1 p2 o1 o2) by done.
  rewrite (operator_lt_spec h p2 p3 o2 o3) by done.
  rewrite (operator_lt_spec h p1 p3 o1 o3) by done.
  rewrite (operator_lt_spec h p1 p1 o1 o1) by done.
  destruct o1 as [[|a] [|]], o2 as [[|b] [|]], o3 as [[|c] [|]];
    try discriminate; simpl; intros H12 H23; try discriminate;
    rewrite ?Hirr; try done.
  injection H12 as H12. injection H23 as H23. by rewrite (Htrans a b c).
Qed.

End maybe_ordering.

(** * Further properties of ftl::maybe: fmap, bind and the monoid *)

Section maybe_functor.
Import Maybe MaybeFunctions.
Context {A B : Type} `{ValueType A} `{ValueType B} `{NothrowMove B}.

Ltac unfold_functions :=
  unfold fmap, bind_, applied, nothing, value_rvalue, maybe_value_rvalue,
    maybe_default, constructor, operator_star, operator_bool, isValue, read,
    bind, ret, throw, terminate, get_isValid, read_val.

Ltac look :=
  repeat first
    [ progress simpl
    | rewrite lookup_insert_eq
    | rewrite lookup_insert_ne by congruence
    | match goal with
      | Hl : ?h !! ?p = _ |- context [?h !! ?p] => rewrite Hl
      | Hc : copy_construct ?a = _ |- context [copy_construct ?a] =>
          rewrite Hc
      end ].

Lemma fmap_spec (f : A → B) (h : gmap nat (maybe A)) (hb : gmap nat (maybe B))
    (m result : nat) o :
  h !! m = Some o →
  valid_state o = true →
  hb !! result = None →
  fmap f m result h hb =
    match contents o with
    | Some a =>
        match copy_construct (f a) with
        | Some b => Returns tt (<[result := Maybe (constructed b) true]> hb)
        | None =>
            if nothrow_move_constructible then Terminates
            else Throws value_type_exn hb
        end
    | None => Returns tt (<[result := Maybe dummy false]> hb)
    end.
Proof.
  intros Hm Hok Hresult.
  destruct o as [[|a] [|]]; try discriminate; simpl;
    try destruct (copy_construct (f a)) as [b|] eqn:Hcopy;
    unfold_functions; look; try reflexivity.
  by destruct nothrow_move_constructible.
Qed.


(** X16: bind is fmap: it wraps the result of [f] in a value and does not
    flatten; for every input the two build the same result. *)
Theorem bind_is_fmap (f : A → B) (h : gmap nat (maybe A))
    (hb : gmap nat (maybe B)) (m result : nat) :
  bind_ m f result h hb = fmap f m result h hb.
Proof.
  unfold bind_, fmap.
  destruct (applied f m h) as [[b|] ?| | |]; reflexivity.
Qed.

End maybe_functor.

Section maybe_functor_composition.
Import Maybe MaybeFunctions.
Context {A B C : Type} `{ValueType A} `{ValueType B} `{ValueType C}.
Context `{NothrowMove B} `{NothrowMove C}.

(** X17: composition: when copying a [B] gives the same [B], mapping [f] into a
    fresh slot and then [g] over that slot builds what mapping [g ∘ f]
    builds. *)
Theorem fmap_composes (f : A → B) (g : B → C) (h : gmap nat (maybe A))
    (hb : gmap nat (maybe B)) (hc : gmap nat (maybe C)) (m p q : nat) o :
  (∀ b : B, copy_construct b = Some b) →
  h !! m = Some o →
  valid_state o = true →
  hb !! p = None →
  hc !! q = None →
  ∃ hb', fmap f m p h hb = Returns tt hb'
         ∧ fmap g p q hb' hc = fmap (g ∘ f) m q h hc.
Proof.
  intros Hfaithful Hm Hok Hp Hq.
  rewrite (fmap_spec f h hb m p o), (fmap_spec (g ∘ f) h hc m q o) by done.
  destruct o as [[|a] [|]]; try discriminate; simpl;
    rewrite ?Hfaithful; eexists; (split; [reflexivity|]);
    erewrite fmap_spec; try apply lookup_insert_eq; done.
Qed.

End maybe_functor_composition.

Section maybe_functor_identity.
Import Maybe MaybeFunctions.
Context {A : Type} `{ValueType A} `{NothrowMove A}.

(** X18: identity: when copying an [A] gives the same [A], mapping the identity
    builds a maybe with the contents of the source. *)
Theorem fmap_identity (h h2 : gmap nat (maybe A)) (m p : nat) o :
  (∀ a : A, copy_construct a = Some a) →
  h !! m = Some o →
  valid_state o = true →
  h2 !! p = None →
  ∃ h', fmap id m p h h2 = Returns tt h'
        ∧ contents <$> h' !! p = Some (contents o).
Proof.
  intros Hfaithful Hm Hok Hp.
  rewrite (fmap_spec id h h2 m p o) by done.
  destruct o as [[|a] [|]]; try discriminate; simpl;
    rewrite ?Hfaithful; eexists; (split; [reflexivity|]);
    by rewrite lookup_insert_eq.
Qed.

End maybe_functor_identity.

Section maybe_monoid.
Import Maybe MaybeFunctions.
Context {A : Type} `{ValueType A} `{Monoid A} `{NothrowMove A}.
Implicit Types (h : gmap nat (maybe A)) (o : maybe A).

Ltac unfold_monoid :=
  unfold append, id_, maybe_value_rvalue, maybe_value, maybe_copy,
    maybe_default, constructor, placement_copy, operator_star,
    operator_bool, isValue, read, bind, ret, throw, terminate, get_isValid,
    read_val, write_val.

Ltac look :=
  repeat first
    [ progress simpl
    | rewrite lookup_insert_eq
    | rewrite lookup_insert_ne by congruence
    | rewrite lookup_delete_eq
    | rewrite lookup_delete_ne by congruence
    | match goal with
      | Hl : ?h !! ?p = _ |- context [?h !! ?p] => rewrite Hl
      | Hc : copy_construct ?a = _ |- context [copy_construct ?a] =>
          rewrite Hc
      end ].

Ltac stores_agree :=
  f_equal; apply map_eq; intros k;
  repeat match goal with
    | |- context [<[?p := _]> _ !! k] =>
        destruct (decide (p = k)) as [->|?]; look; try done
    | |- context [delete ?p _ !! k] =>
        destruct (decide (p = k)) as [->|?]; look; try done
    end.

Lemma append_spec h (m1 m2 result : nat) o1 o2 :
  h !! m1 = Some o1 →
  h !! m2 = Some o2 →
  valid_state o1 = true →
  valid_state o2 = true →
  h !! result = None →
  append m1 m2 result h =
    match contents o1, contents o2 with
    | Some a, Some b => maybe_value_rvalue result (value_append a b) h
    | Some a, None => maybe_value result a h
    | None, Some b => maybe_value result b h
    | None, None => maybe_default result h
    end.
Proof.
  intros Hm1 Hm2 Hok1 Hok2 Hresult.
  assert (result ≠ m1) by congruence. assert (result ≠ m2) by congruence.
  destruct o1 as [[|a] [|]], o2 as [[|b] [|]]; try discriminate; simpl;
    try destruct (copy_construct a) eqn:Hca;
    try destruct (copy_construct b) eqn:Hcb;
    unfold_monoid; look; try reflexivity; stores_agree.
Qed.

(** X19: append on two maybes, and operator^ which calls it, is the monoid of
    the value type lifted as the documentation of the instance states it:
    two values give the value of their append, built by the constructor
    from an rvalue (which calls std::terminate when the copy it makes throws
    and the move constructor is noexcept); a value and nothing give what
    the constructor from that value gives, a copy; two nothings give
    nothing. *)
Theorem append_lifts_monoid h (m1 m2 result : nat) o1 o2 :
  h !! m1 = Some o1 →
  h !! m2 = Some o2 →
  valid_state o1 = true →
  valid_state o2 = true →
  h !! result = None →
  append m1 m2 result h =
    match contents o1, contents o2 with
    | Some a, Some b => maybe_value_rvalue result (value_append a b) h
    | Some a, None => maybe_value result a h
    | None, Some b => maybe_value result b h
    | None, None => maybe_default result h
    end
  ∧ operator_xor m1 m2 result h = append m1 m2 result h.
Proof.
  intros Hm1 Hm2 Hok1 Hok2 Hresult. split; [|reflexivity].
  assert (result ≠ m1) by congruence. assert (result ≠ m2) by congruence.
  destruct o1 as [[|a] [|]], o2 as [[|b] [|]]; try discriminate; simpl;
    try destruct (copy_construct a) eqn:Hca;
    try destruct (copy_construct b) eqn:Hcb;
    unfold_monoid; look; try reflexivity; stores_agree.
Qed.

Lemma maybe_value_faithful h (p : nat) (a : A) :
  (∀ a : A, copy_construct a = Some a) →
  h !! p = None →
  maybe_value p a h = Returns tt (<[p := Maybe (constructed a) true]> h).
Proof.
  intros Hfaithful Hp. unfold maybe_value, constructor, ret.
  rewrite Hfaithful, Hp. reflexivity.
Qed.

Lemma maybe_value_rvalue_faithful h (p : nat) (a : A) :
  (∀ a : A, copy_construct a = Some a) →
  h !! p = None →
  maybe_value_rvalue p a h =
    Returns tt (<[p := Maybe (constructed a) true]> h).
Proof.
  intros Hfaithful Hp. unfold maybe_value_rvalue, constructor, ret.
  rewrite Hfaithful, Hp. reflexivity.
Qed.

Lemma maybe_default_fresh h (p : nat) :
  h !! p = None →
  maybe_default p h = Returns tt (<[p := Maybe dummy false]> h).
Proof. intros Hp. unfold maybe_default, constructor, ret. by rewrite Hp. Qed.

(** X20: the result of id is a two-sided identity of append: appending it on
    either side of [m] builds what copy-constructing from [m] builds. *)
Theorem nothing_is_identity_of_append h (e m result : nat) o :
  h !! e = None →
  h !! m = Some o →
  valid_state o = true →
  h !! result = None →
  e ≠ result →
  ∃ h', id_ e h = Returns tt h'
        ∧ append e m result h' = maybe_copy result m h'
        ∧ append m e result h' = maybe_copy result m h'.
Proof.
  intros He Hm Hok Hresult Hne. assert (e ≠ m) by congruence.
  assert (result ≠ m) by congruence.
  eexists. split; [by apply maybe_default_fresh|].
  split.
  - rewrite (append_spec _ e m result (Maybe dummy false) o);
      [| by look | by look | done | done | by look ].
    destruct o as [[|a] [|]]; try discriminate; simpl;
      try destruct (copy_construct a) eqn:Hca;
      unfold_monoid; look; try reflexivity; stores_agree.
  - rewrite (append_spec _ m e result o (Maybe dummy false));
      [| by look | by look | done | done | by look ].
    destruct o as [[|a] [|]]; try discriminate; simpl;
      try destruct (copy_construct a) eqn:Hca;
      unfold_monoid; look; try reflexivity; stores_agree.
Qed.

(** X21: when copying an [A] gives the same [A] and append of the value type is
    associative, append of maybe is associative: grouping three maybes to
    the left or to the right, through fresh temporaries, builds the same
    result. *)
Theorem append_is_associative h (m1 m2 m3 t1 t2 r1 r2 : nat) o1 o2 o3 :
  (∀ a : A, copy_construct a = Some a) →
  (∀ a b c : A,
     value_append (value_append a b) c = value_append a (value_append b c)) →
  h !! m1 = Some o1 →
  h !! m2 = Some o2 →
  h !! m3 = Some o3 →
  valid_state o1 = true →
  valid_state o2 = true →
  valid_state o3 = true →
  h !! t1 = None →
  h !! t2 = None →
  h !! r1 = None →
  h !! r2 = None →
  t1 ≠ r1 →
  t2 ≠ r2 →
  ∃ h1 h2 x,
    bind (append m1 m2 t1) (λ _, append t1 m3 r1) h = Returns tt h1
    ∧ bind (append m2 m3 t2) (λ _, append m1 t2 r2) h = Returns tt h2
    ∧ h1 !! r1 = Some x
    ∧ h2 !! r2 = Some x.
Proof.
  intros Hfaithful Hassoc Hm1 Hm2 Hm3 Hok1 Hok2 Hok3 Ht1 Ht2 Hr1 Hr2 Hn1 Hn2.
  assert (t1 ≠ m1 ∧ t1 ≠ m2 ∧ t1 ≠ m3 ∧ t2 ≠ m1 ∧ t2 ≠ m2 ∧ t2 ≠ m3
          ∧ r1 ≠ m1 ∧ r1 ≠ m2 ∧ r1 ≠ m3 ∧ r2 ≠ m1 ∧ r2 ≠ m2 ∧ r2 ≠ m3)
    as (?&?&?&?&?&?&?&?&?&?&?&?) by (repeat split; congruence).
  unfold bind.
  rewrite (append_spec h m1 m2 t1 o1 o2), (append_spec h m2 m3 t2 o2 o3)
    by done.
  destruct o1 as [[|a] [|]], o2 as [[|b] [|]], o3 as [[|c] [|]];
    try discriminate; simpl;
    rewrite ?maybe_value_rvalue_faithful, ?maybe_value_faithful,
      ?maybe_default_fresh by done;
    (erewrite (append_spec _ _ _ r1);
       [| by look | by look | done | done | by look ]);
    (erewrite (append_spec _ _ _ r2);
       [| by look | by look | done | done | by look ]);
    simpl;
    rewrite ?maybe_value_rvalue_faithful, ?maybe_value_faithful,
      ?maybe_default_fresh by (by look);
    eexists _, _, _; rewrite ?Hassoc;
    (split; [reflexivity|]); (split; [reflexivity|]);
    by rewrite !lookup_insert_eq.
Qed.

End maybe_monoid.

(** * Further properties of functor<std::unordered_map>::map *)

Section unordered_map_laws.
Import UnorderedMap.
Context {K : Type} `{Countable K}.

Lemma assign_loop_fmap {T : Type} (g : T → T) (m : gmap K T)
    (kvs : list (K * T)) :
  kvs ≡ₚ map_to_list m →
  map_rvalue_endo g m kvs = g <$> m.
Proof.
  intros Hperm. destruct (visited_elements m kvs Hperm) as [Hnodup _].
  unfold map_rvalue_endo. apply map_eq; intros k.
  rewrite assign_loop_lookup, lookup_fmap by done.
  destruct (decide (k ∈ kvs.*1)) as [|Hin]; [done|].
  destruct (m !! k) as [v|] eqn:Hk; [|done].
  destruct Hin. rewrite Hperm. apply list_elem_of_fmap.
  exists (k, v). split; [done|]. by apply elem_of_map_to_list.
Qed.

(** X22: the result of map does not depend on the order in which the container
    hands out its elements, and the three overloads agree: the const
    overload on two visiting orders, the rvalue overload and, for an
    endofunction, the in-place overload all build the same map. *)
Theorem map_is_independent_of_bucket_order {T U : Type}
    (f : T → U) (g : T → T) (m : gmap K T) (kvs kvs' : list (K * T)) :
  kvs ≡ₚ map_to_list m →
  kvs' ≡ₚ map_to_list m →
  map_lvalue f m kvs = map_lvalue f m kvs'
  ∧ map_rvalue f kvs = (map_lvalue f m kvs').1
  ∧ map_rvalue_endo g m kvs = (map_lvalue g m kvs').1.
Proof.
  intros Hperm Hperm'. unfold map_lvalue, map_rvalue. cbn [fst].
  rewrite (assign_loop_fmap g m kvs Hperm).
  by rewrite !(emplace_loop_fmap _ m kvs Hperm),
    !(emplace_loop_fmap _ m kvs' Hperm').
Qed.

(** X23: identity law: mapping the identity function returns a map equal to the
    argument, by the const overload and by the in-place overload. *)
Theorem map_identity {T : Type} (m : gmap K T) (kvs : list (K * T)) :
  kvs ≡ₚ map_to_list m →
  (map_lvalue id m kvs).1 = m ∧ map_rvalue_endo id m kvs = m.
Proof.
  intros Hperm. unfold map_lvalue. cbn [fst].
  rewrite (assign_loop_fmap id m kvs Hperm).
  rewrite (emplace_loop_fmap id m kvs Hperm).
  by rewrite map_fmap_id.
Qed.

(** X24: composition law: mapping [f] and then mapping [g] over the result, in
    whatever order the result hands out its elements, is mapping [g ∘ f]. *)
Theorem map_composes {T U V : Type} (f : T → U) (g : U → V) (m : gmap K T)
    (kvs : list (K * T)) (kvs' : list (K * U)) :
  kvs ≡ₚ map_to_list m →
  kvs' ≡ₚ map_to_list (map_lvalue f m kvs).1 →
  (map_lvalue g (map_lvalue f m kvs).1 kvs').1 = (map_lvalue (g ∘ f) m kvs).1
  ∧ map_rvalue g kvs' = map_rvalue (g ∘ f) kvs.
Proof.
  intros Hperm. unfold map_lvalue, map_rvalue. cbn [fst].
  rewrite (emplace_loop_fmap f m kvs Hperm). intros Hperm'.
  rewrite (emplace_loop_fmap g (f <$> m) kvs' Hperm').
  rewrite (emplace_loop_fmap (g ∘ f) m kvs Hperm).
  by rewrite map_fmap_compose.
Qed.

(** X25: map keeps the number of elements: the result is as large as the
    argument, and empty exactly when the argument is. *)
Theorem map_preserves_size {T U : Type} (f : T → U) (g : T → T)
    (m : gmap K T) (kvs : list (K * T)) :
  kvs ≡ₚ map_to_list m →
  size (map_lvalue f m kvs).1 = size m
  ∧ size (map_rvalue f kvs) = size m
  ∧ size (map_rvalue_endo g m kvs) = size m
  ∧ ((map_lvalue f m kvs).1 = ∅ ↔ m = ∅).
Proof.
  intros Hperm. unfold map_lvalue, map_rvalue. cbn [fst].
  rewrite (assign_loop_fmap g m kvs Hperm).
  rewrite !(emplace_loop_fmap f m kvs Hperm), !map_size_fmap.
  repeat split; try done.
  - apply fmap_empty_inv.
  - intros ->. apply fmap_empty.
Qed.

End unordered_map_laws.

(** * Further properties of ftl::maybe: how the members compose *)

Section maybe_composition.
Import Maybe MaybeFunctions.
Context {A : Type} `{ValueType A}.
Implicit Types (h : gmap nat (maybe A)) (o : maybe A).

Ltac unfold_members :=
  unfold operator_assign, operator_assign_move, operator_eq, operator_ne,
    operator_star, operator_bool, isValue, isNothing, maybe_move,
    maybe_copy, constructor, placement_move, placement_copy, destroy_val,
    and_also, not_, read, bind, ret, throw, get_isValid, set_isValid,
    read_val, write_val.

Ltac run :=
  repeat first
    [ progress simpl
    | rewrite lookup_insert_eq
    | rewrite lookup_insert_ne by congruence
    | match goal with
      | Hl : ?h !! ?p = _ |- context [?h !! ?p] => rewrite Hl
      | Hc : move_construct ?a = _ |- context [move_construct ?a] =>
          rewrite Hc
      | Hc : copy_construct ?a = _ |- context [copy_construct ?a] =>
          rewrite Hc
      end ].

(** X26: dereferencing a maybe after its value was moved out, by move
    construction or by move assignment, throws std::logic_error: the
    moved-from value cannot be reached through operator*. *)
Theorem dereference_after_move_throws h (this fresh m : nat) dst a b a' :
  this ≠ m →
  h !! this = Some dst →
  valid_state dst = true →
  h !! fresh = None →
  h !! m = Some (Maybe (constructed a) true) →
  move_construct a = (Some b, a') →
  bind (maybe_move fresh m) (λ _, operator_star m) h =
    Throws (logic_error "Attempting to read the value of Nothing.")
      (<[m := Maybe (constructed a') false]>
         (<[fresh := Maybe (constructed b) true]> h))
  ∧ bind (operator_assign_move this m) (λ _, operator_star m) h =
      Throws (logic_error "Attempting to read the value of Nothing.")
        (<[m := Maybe (constructed a') false]>
           (<[this := Maybe (constructed b) true]> h)).
Proof.
  intros Hne Hthis Hok Hfresh Hm Hmove.
  split; unfold bind at 1.
  - rewrite (maybe_move_value h fresh m a b a') by done.
    unfold_members. by run.
  - rewrite (operator_assign_move_value h this m dst a b a') by done.
    unfold_members. by run.
Qed.

(** X27: a copy compares equal to its source: when a copy of a value equals the
    value under operator== of the value type, a maybe built by the copy
    constructor, and a maybe assigned by copy, is [==] to the maybe it was
    copied from. *)
Theorem copy_compares_equal h (this fresh m : nat) dst src :
  (∀ a b : A, copy_construct a = Some b → value_eq b a = true) →
  (∀ a : A, is_Some (copy_construct a)) →
  this ≠ m →
  h !! this = Some dst →
  valid_state dst = true →
  h !! fresh = None →
  h !! m = Some src →
  valid_state src = true →
  ∃ h1 h2,
    bind (maybe_copy fresh m) (λ _, operator_eq fresh m) h = Returns true h1
    ∧ bind (operator_assign this m) (λ _, operator_eq this m) h =
        Returns true h2.
Proof.
  intros Heq Hcopies Hne Hthis Hdst Hfresh Hm Hsrc.
  assert (fresh ≠ m) by congruence.
  unfold operator_assign. rewrite decide_False by done.
  destruct dst as [[|d] [|]], src as [[|a] [|]]; try discriminate;
    try (destruct (Hcopies a) as [b Hb]; pose proof (Heq a b Hb) as Hab);
    eexists _, _; split; unfold_members; run; rewrite ?Hab; reflexivity.
Qed.

(** X28: when operator== of the value type is reflexive and symmetric, so is
    operator== of maybe. *)
Theorem equality_is_reflexive_and_symmetric h (p1 p2 : nat) o1 o2 :
  (∀ a : A, value_eq a a = true) →
  (∀ a b : A, value_eq a b = value_eq b a) →
  h !! p1 = Some o1 →
  h !! p2 = Some o2 →
  valid_state o1 = true →
  valid_state o2 = true →
  operator_eq p1 p1 h = Returns true h
  ∧ operator_eq p1 p2 h = operator_eq p2 p1 h.
Proof.
  intros Hrefl Hsym Hp1 Hp2 Hok1 Hok2.
  destruct o1 as [[|a] [|]], o2 as [[|b] [|]]; try discriminate;
    split; unfold_members; run; rewrite ?Hrefl; try reflexivity.
  by rewrite Hsym.
Qed.

End maybe_composition.

(** * Concrete runs of the further properties *)

Section further_runs.
Import Maybe MaybeFunctions UnorderedMap.

(** Discharging the hypotheses of a theorem at a concrete input. *)
Ltac discharge Hw solver :=
  repeat lazymatch type of Hw with
    | ?P → _ =>
        let HP := fresh "HP" in
        assert (HP : P) by solver; specialize (Hw HP); clear HP
    end.

Ltac evaluate :=
  first [ reflexivity | discriminate | by eexists
        | vm_compute; reflexivity | vm_compute; apply perm_swap ].

Lemma int_store_ok : store_ok int_store.
Proof.
  apply map_Forall_insert_2; [reflexivity|].
  apply map_Forall_singleton. reflexivity.
Qed.

Lemma int_copy_faithful (a : Z) : copy_construct a = Some a.
Proof. reflexivity. Qed.

(** Copying the maybe<int> holding 5 into fresh storage at 2. *)
Lemma copy_constructor_copies_witness :
  maybe_copy 2 1 int_store =
    Returns tt (<[2 := Maybe (constructed 5%Z) true]> int_store).
Proof.
  pose proof (copy_constructor_copies int_store 2 1
           (Maybe (constructed 5%Z) true)) as Hw.
  discharge Hw ltac:(first [ evaluate | exact int_store_ok
    | exact int_copy_faithful | exact int_trichotomy | exact Z.ltb_irrefl
    | exact Z.gtb_ltb | intros; symmetry; apply Z.add_assoc
    | intros a b c Hab%Z.ltb_lt Hbc%Z.ltb_lt; apply Z.ltb_lt; lia ]).
  exact Hw.
Defined.

(** Destroying the maybe<int> holding 5, and destroying a maybe<int> whose
    flag is set over unconstructed storage. *)
Lemma destructor_releases_witness :
  destructor 1 int_store = Returns tt (delete 1 int_store)
  ∧ destructor 0 (<[0 := Maybe dummy true]> int_store) = Undefined.
Proof.
  split.
  - pose proof (destructor_releases int_store 1
                  (Maybe (constructed 5%Z) true)) as Hw.
    discharge Hw ltac:(evaluate).
    exact Hw.
  - pose proof (destructor_releases (<[0 := Maybe dummy true]> int_store) 0
                  (Maybe dummy true)) as Hw.
    discharge Hw ltac:(evaluate).
    exact Hw.
Defined.

(** Constructing a maybe<int> from 7 at 2 and reading it. *)
Lemma value_constructor_round_trip_witness :
  ∃ h', maybe_value 2 7%Z int_store = Returns tt h'
        ∧ maybe_value_rvalue 2 7%Z int_store = Returns tt h'
        ∧ value 2 7%Z int_store = Returns tt h'
        ∧ value_rvalue 2 7%Z int_store = Returns tt h'
        ∧ isValue 2 h' = Returns true h'
        ∧ isNothing 2 h' = Returns false h'
        ∧ bind (operator_star 2) read h' = Returns 7%Z h'.
Proof.
  pose proof (value_constructor_round_trip int_store 2 7%Z 7%Z) as Hw.
  discharge Hw ltac:(first [ evaluate | exact int_store_ok
    | exact int_copy_faithful | exact int_trichotomy | exact Z.ltb_irrefl
    | exact Z.gtb_ltb | intros; symmetry; apply Z.add_assoc
    | intros a b c Hab%Z.ltb_lt Hbc%Z.ltb_lt; apply Z.ltb_lt; lia ]).
  exact Hw.
Defined.

(** Copy-assigning the maybe<int> holding 5 to the empty one, and to one
    whose flag is set over unconstructed storage. *)
Lemma copy_assignment_from_value_witness :
  operator_assign 0 1 int_store =
    Returns (Some 0) (<[0 := Maybe (constructed 5%Z) true]> int_store)
  ∧ operator_assign 0 1 (<[0 := Maybe dummy true]> int_store) = Undefined.
Proof.
  split.
  - pose proof (copy_assignment_from_value int_store 0 1
                  (Maybe dummy false) 5%Z 5%Z) as Hw.
    discharge Hw ltac:(evaluate).
    exact Hw.
  - pose proof (copy_assignment_from_value
                  (<[0 := Maybe dummy true]> int_store) 0 1
                  (Maybe dummy true) 5%Z 5%Z) as Hw.
    discharge Hw ltac:(evaluate).
    exact Hw.
Defined.

(** Assigning the empty maybe<int> to the one holding 5. *)
Lemma assignment_from_nothing_witness :
  operator_assign 1 0 int_store =
    Returns (Some 1) (<[1 := Maybe dummy false]> int_store)
  ∧ operator_assign_move 1 0 int_store =
      Returns (Some 1) (<[1 := Maybe dummy false]> int_store).
Proof.
  pose proof (assignment_from_nothing int_store 1 0
           (Maybe (constructed 5%Z) true) dummy) as Hw.
  discharge Hw ltac:(first [ evaluate | exact int_store_ok
    | exact int_copy_faithful | exact int_trichotomy | exact Z.ltb_irrefl
    | exact Z.gtb_ltb | intros; symmetry; apply Z.add_assoc
    | intros a b c Hab%Z.ltb_lt Hbc%Z.ltb_lt; apply Z.ltb_lt; lia ]).
  exact Hw.
Defined.

(** Move-constructing from a maybe that holds a pinned value. *)
Lemma move_constructor_throw_witness :
  maybe_move 2 1 pinned_store = Throws value_type_exn pinned_store.
Proof.
  pose proof (move_constructor_throw pinned_store 2 1 {| pinned := true |}
                {| pinned := true |}) as Hw.
  discharge Hw ltac:(evaluate).
  exact Hw.
Defined.

(** Move-constructing from the empty maybe<int>. *)
Lemma move_constructor_from_nothing_witness :
  maybe_move 2 0 int_store =
    Returns tt (<[2 := Maybe dummy false]> int_store).
Proof.
  pose proof (move_constructor_from_nothing int_store 2 0 dummy) as Hw.
  discharge Hw ltac:(first [ evaluate | exact int_store_ok
    | exact int_copy_faithful | exact int_trichotomy | exact Z.ltb_irrefl
    | exact Z.gtb_ltb | intros; symmetry; apply Z.add_assoc
    | intros a b c Hab%Z.ltb_lt Hbc%Z.ltb_lt; apply Z.ltb_lt; lia ]).
  exact Hw.
Defined.


(** Nothing against 5. *)
Lemma order_puts_nothing_first_witness :
  operator_lt 0 1 int_store = Returns true int_store
  ∧ operator_gt 0 1 int_store = Returns false int_store.
Proof.
  pose proof (order_puts_nothing_first int_store 0 1 (Maybe dummy false)
           (Maybe (constructed 5%Z) true)) as Hw.
  discharge Hw ltac:(first [ evaluate | exact int_store_ok
    | exact int_copy_faithful | exact int_trichotomy | exact Z.ltb_irrefl
    | exact Z.gtb_ltb | intros; symmetry; apply Z.add_assoc
    | intros a b c Hab%Z.ltb_lt Hbc%Z.ltb_lt; apply Z.ltb_lt; lia ]).
  exact Hw.
Defined.

(** 5 against 7. *)
Lemma greater_is_converse_of_less_witness :
  operator_gt 1 2 ordered_store = operator_lt 2 1 ordered_store.
Proof.
  pose proof (greater_is_converse_of_less ordered_store 1 2
           (Maybe (constructed 5%Z) true) (Maybe (constructed 7%Z) true)) as Hw.
  discharge Hw ltac:(first [ evaluate | exact int_store_ok
    | exact int_copy_faithful | exact int_trichotomy | exact Z.ltb_irrefl
    | exact Z.gtb_ltb | intros; symmetry; apply Z.add_assoc
    | intros a b c Hab%Z.ltb_lt Hbc%Z.ltb_lt; apply Z.ltb_lt; lia ]).
  exact Hw.
Defined.

Lemma int_trichotomy (a b : Z) :
  exactly_one (value_lt a b) (value_eq a b) (value_gt a b) = true.
Proof.
  simpl. rewrite Z.gtb_ltb.
  destruct (Z.ltb_spec a b), (Z.eqb_spec a b), (Z.ltb_spec b a);
    simpl; try reflexivity; lia.
Qed.

(** 5 against 7: less, not equal, not greater. *)
Lemma maybe_trichotomy_witness :
  ∃ lt eq gt,
    operator_lt 1 2 ordered_store = Returns lt ordered_store
    ∧ operator_eq 1 2 ordered_store = Returns eq ordered_store
    ∧ operator_gt 1 2 ordered_store = Returns gt ordered_store
    ∧ exactly_one lt eq gt = true.
Proof.
  pose proof (maybe_trichotomy ordered_store 1 2
           (Maybe (constructed 5%Z) true) (Maybe (constructed 7%Z) true)) as Hw.
  discharge Hw ltac:(first [ evaluate | exact int_store_ok
    | exact int_copy_faithful | exact int_trichotomy | exact Z.ltb_irrefl
    | exact Z.gtb_ltb | intros; symmetry; apply Z.add_assoc
    | intros a b c Hab%Z.ltb_lt Hbc%Z.ltb_lt; apply Z.ltb_lt; lia ]).
  exact Hw.
Defined.

(** Nothing, 5 and 7 in increasing order. *)
Lemma less_is_strict_order_witness :
  operator_lt 0 2 ordered_store = Returns true ordered_store
  ∧ operator_lt 0 0 ordered_store = Returns false ordered_store.
Proof.
  pose proof (less_is_strict_order ordered_store 0 1 2 (Maybe dummy false)
           (Maybe (constructed 5%Z) true) (Maybe (constructed 7%Z) true)) as Hw.
  discharge Hw ltac:(first [ evaluate | exact int_store_ok
    | exact int_copy_faithful | exact int_trichotomy | exact Z.ltb_irrefl
    | exact Z.gtb_ltb | intros; symmetry; apply Z.add_assoc
    | intros a b c Hab%Z.ltb_lt Hbc%Z.ltb_lt; apply Z.ltb_lt; lia ]).
  exact Hw.
Defined.


(** Mapping the successor and then the double over the maybe<int> holding
    5. *)
Lemma fmap_composes_witness :
  ∃ hb', fmap Z.succ 1 0 int_store ∅ = Returns tt hb'
         ∧ fmap Z.double 0 0 hb' ∅ =
             fmap (Z.double ∘ Z.succ) 1 0 int_store ∅.
Proof.
  pose proof (fmap_composes Z.succ Z.double int_store ∅ ∅ 1 0 0
           (Maybe (constructed 5%Z) true)) as Hw.
  discharge Hw ltac:(first [ evaluate | exact int_store_ok
    | exact int_copy_faithful | exact int_trichotomy | exact Z.ltb_irrefl
    | exact Z.gtb_ltb | intros; symmetry; apply Z.add_assoc
    | intros a b c Hab%Z.ltb_lt Hbc%Z.ltb_lt; apply Z.ltb_lt; lia ]).
  exact Hw.
Defined.

(** Mapping the identity over the maybe<int> holding 5. *)
Lemma fmap_identity_witness :
  ∃ h', fmap id 1 0 int_store ∅ = Returns tt h'
        ∧ contents <$> h' !! 0 = Some (Some 5%Z).
Proof.
  pose proof (fmap_identity int_store ∅ 1 0 (Maybe (constructed 5%Z) true)) as Hw.
  discharge Hw ltac:(first [ evaluate | exact int_store_ok
    | exact int_copy_faithful | exact int_trichotomy | exact Z.ltb_irrefl
    | exact Z.gtb_ltb | intros; symmetry; apply Z.add_assoc
    | intros a b c Hab%Z.ltb_lt Hbc%Z.ltb_lt; apply Z.ltb_lt; lia ]).
  exact Hw.
Defined.

(** Appending 5 and 7 in the sum monoid. *)
Lemma append_lifts_monoid_witness :
  append 1 2 3 ordered_store = maybe_value_rvalue 3 12%Z ordered_store
  ∧ operator_xor 1 2 3 ordered_store = append 1 2 3 ordered_store.
Proof.
  pose proof (append_lifts_monoid ordered_store 1 2 3
           (Maybe (constructed 5%Z) true) (Maybe (constructed 7%Z) true)) as Hw.
  discharge Hw ltac:(first [ evaluate | exact int_store_ok
    | exact int_copy_faithful | exact int_trichotomy | exact Z.ltb_irrefl
    | exact Z.gtb_ltb | intros; symmetry; apply Z.add_assoc
    | intros a b c Hab%Z.ltb_lt Hbc%Z.ltb_lt; apply Z.ltb_lt; lia ]).
  exact Hw.
Defined.

(** Appending the identity to the maybe<int> holding 5. *)
Lemma nothing_is_identity_of_append_witness :
  ∃ h', id_ 3 ordered_store = Returns tt h'
        ∧ append 3 1 4 h' = maybe_copy 4 1 h'
        ∧ append 1 3 4 h' = maybe_copy 4 1 h'.
Proof.
  pose proof (nothing_is_identity_of_append ordered_store 3 1 4
           (Maybe (constructed 5%Z) true)) as Hw.
  discharge Hw ltac:(first [ evaluate | exact int_store_ok
    | exact int_copy_faithful | exact int_trichotomy | exact Z.ltb_irrefl
    | exact Z.gtb_ltb | intros; symmetry; apply Z.add_assoc
    | intros a b c Hab%Z.ltb_lt Hbc%Z.ltb_lt; apply Z.ltb_lt; lia ]).
  exact Hw.
Defined.

(** Appending nothing, 5 and 7, grouped to the left and to the right. *)
Lemma append_is_associative_witness :
  ∃ h1 h2 x,
    bind (append 0 1 3) (λ _, append 3 2 5) ordered_store = Returns tt h1
    ∧ bind (append 1 2 4) (λ _, append 0 4 6) ordered_store = Returns tt h2
    ∧ h1 !! 5 = Some x
    ∧ h2 !! 6 = Some x.
Proof.
  pose proof (append_is_associative ordered_store 0 1 2 3 4 5 6
           (Maybe dummy false) (Maybe (constructed 5%Z) true)
           (Maybe (constructed 7%Z) true)) as Hw.
  discharge Hw ltac:(first [ evaluate | exact int_store_ok
    | exact int_copy_faithful | exact int_trichotomy | exact Z.ltb_irrefl
    | exact Z.gtb_ltb | intros; symmetry; apply Z.add_assoc
    | intros a b c Hab%Z.ltb_lt Hbc%Z.ltb_lt; apply Z.ltb_lt; lia ]).
  exact Hw.
Defined.

(** The map 1 -> 10, 2 -> 20 visited in the orders 1, 2 and 2, 1. *)
Lemma map_is_independent_of_bucket_order_witness :
  map_lvalue Z.succ prices [(1, 10%Z); (2, 20%Z)] =
    map_lvalue Z.succ prices [(2, 20%Z); (1, 10%Z)]
  ∧ map_rvalue Z.succ [(1, 10%Z); (2, 20%Z)] =
      (map_lvalue Z.succ prices [(2, 20%Z); (1, 10%Z)]).1
  ∧ map_rvalue_endo Z.double prices [(1, 10%Z); (2, 20%Z)] =
      (map_lvalue Z.double prices [(2, 20%Z); (1, 10%Z)]).1.
Proof.
  pose proof (map_is_independent_of_bucket_order Z.succ Z.double prices
           [(1, 10%Z); (2, 20%Z)] [(2, 20%Z); (1, 10%Z)]) as Hw.
  discharge Hw ltac:(first [ evaluate | exact int_store_ok
    | exact int_copy_faithful | exact int_trichotomy | exact Z.ltb_irrefl
    | exact Z.gtb_ltb | intros; symmetry; apply Z.add_assoc
    | intros a b c Hab%Z.ltb_lt Hbc%Z.ltb_lt; apply Z.ltb_lt; lia ]).
  exact Hw.
Defined.

Lemma map_identity_witness :
  (map_lvalue id prices [(1, 10%Z); (2, 20%Z)]).1 = prices
  ∧ map_rvalue_endo id prices [(1, 10%Z); (2, 20%Z)] = prices.
Proof.
  pose proof (map_identity prices [(1, 10%Z); (2, 20%Z)]) as Hw.
  discharge Hw ltac:(first [ evaluate | exact int_store_ok
    | exact int_copy_faithful | exact int_trichotomy | exact Z.ltb_irrefl
    | exact Z.gtb_ltb | intros; symmetry; apply Z.add_assoc
    | intros a b c Hab%Z.ltb_lt Hbc%Z.ltb_lt; apply Z.ltb_lt; lia ]).
  exact Hw.
Defined.

Lemma map_composes_witness :
  (map_lvalue Z.double
     (map_lvalue Z.succ prices [(1, 10%Z); (2, 20%Z)]).1
     [(1, 11%Z); (2, 21%Z)]).1 =
    (map_lvalue (Z.double ∘ Z.succ) prices [(1, 10%Z); (2, 20%Z)]).1
  ∧ map_rvalue Z.double [(1, 11%Z); (2, 21%Z)] =
      map_rvalue (Z.double ∘ Z.succ) [(1, 10%Z); (2, 20%Z)].
Proof.
  pose proof (map_composes Z.succ Z.double prices [(1, 10%Z); (2, 20%Z)]
           [(1, 11%Z); (2, 21%Z)]) as Hw.
  discharge Hw ltac:(first [ evaluate | exact int_store_ok
    | exact int_copy_faithful | exact int_trichotomy | exact Z.ltb_irrefl
    | exact Z.gtb_ltb | intros; symmetry; apply Z.add_assoc
    | intros a b c Hab%Z.ltb_lt Hbc%Z.ltb_lt; apply Z.ltb_lt; lia ]).
  exact Hw.
Defined.

Lemma map_preserves_size_witness :
  size (map_lvalue Z.succ prices [(1, 10%Z); (2, 20%Z)]).1 = size prices
  ∧ size (map_rvalue Z.succ [(1, 10%Z); (2, 20%Z)]) = size prices
  ∧ size (map_rvalue_endo Z.double prices [(1, 10%Z); (2, 20%Z)]) =
      size prices
  ∧ ((map_lvalue Z.succ prices [(1, 10%Z); (2, 20%Z)]).1 = ∅ ↔ prices = ∅).
Proof.
  pose proof (map_preserves_size Z.succ Z.double prices [(1, 10%Z); (2, 20%Z)]) as Hw.
  discharge Hw ltac:(first [ evaluate | exact int_store_ok
    | exact int_copy_faithful | exact int_trichotomy | exact Z.ltb_irrefl
    | exact Z.gtb_ltb | intros; symmetry; apply Z.add_assoc
    | intros a b c Hab%Z.ltb_lt Hbc%Z.ltb_lt; apply Z.ltb_lt; lia ]).
  exact Hw.
Defined.

(** Reading the maybe<int> that held 5 after moving it out. *)
Lemma dereference_after_move_throws_witness :
  bind (maybe_move 2 1) (λ _, operator_star 1) int_store =
    Throws (logic_error "Attempting to read the value of Nothing.")
      (<[1 := Maybe (constructed 5%Z) false]>
         (<[2 := Maybe (constructed 5%Z) true]> int_store))
  ∧ bind (operator_assign_move 0 1) (λ _, operator_star 1) int_store =
      Throws (logic_error "Attempting to read the value of Nothing.")
        (<[1 := Maybe (constructed 5%Z) false]>
           (<[0 := Maybe (constructed 5%Z) true]> int_store)).
Proof.
  pose proof (dereference_after_move_throws int_store 0 2 1
                (Maybe dummy false) 5%Z 5%Z 5%Z) as Hw.
  discharge Hw ltac:(evaluate).
  exact Hw.
Defined.

(** Copying the maybe<int> holding 5 and comparing the copy with it. *)
Lemma copy_compares_equal_witness :
  ∃ h1 h2,
    bind (maybe_copy 2 1) (λ _, operator_eq 2 1) int_store = Returns true h1
    ∧ bind (operator_assign 0 1) (λ _, operator_eq 0 1) int_store =
        Returns true h2.
Proof.
  pose proof (copy_compares_equal int_store 0 2 1 (Maybe dummy false)
                (Maybe (constructed 5%Z) true)) as Hw.
  discharge Hw ltac:(first
    [ evaluate
    | intros a b [= <-]; apply Z.eqb_refl
    | intros a; by eexists ]).
  exact Hw.
Defined.

(** 5 against 7, and 5 against itself. *)
Lemma equality_is_reflexive_and_symmetric_witness :
  operator_eq 1 1 ordered_store = Returns true ordered_store
  ∧ operator_eq 1 2 ordered_store = operator_eq 2 1 ordered_store.
Proof.
  pose proof (equality_is_reflexive_and_symmetric ordered_store 1 2
                (Maybe (constructed 5%Z) true)
                (Maybe (constructed 7%Z) true)) as Hw.
  discharge Hw ltac:(first
    [ evaluate | exact Z.eqb_refl | exact Z.eqb_sym ]).
  exact Hw.
Defined.

End further_runs.
